(** * Remotion Lambda: service-client cache and permission simulation

    A shallow embedding of
    - [packages/lambda/src/shared/aws-clients.ts]
      ([getCredentials], [getCredentialsHash], [getServiceClient] and the
      per-service getters), and
    - the permission-simulation entry point [simulatePermissions] with its
      inlined identity-ARN normalisation,
    followed by the properties established about them.

    Modelling conventions.
    - A JavaScript string is a Rocq [string]: a sequence of code units, here
      restricted to the 8-bit range.  The two regular expressions of the source
      carry no flags, so they work code unit by code unit.
    - A value that may be [undefined] or [null] is an [option].
    - An object that is serialised carries, besides the values of its
      members, the order in which it holds them.
    - A thrown [Error] is the left injection of a sum, carrying the message.
    - Object identity (what [===] compares on objects) is an allocation
      number handed out by [new]. *)

From Stdlib Require Import Ascii String List Bool Arith Lia.
From stdpp Require Import base option list gmap strings.

Local Open Scope string_scope.
Local Open Scope list_scope.
Local Open Scope stdpp_scope.

(* ===================================================================== *)
(** * Part I: definitions                                                *)
(* ===================================================================== *)

(** ** Strings *)

(** JavaScript truthiness of a string-or-undefined value: defined and
    non-empty. *)
Definition truthy (v : option string) : bool :=
  match v with
  | Some (String _ _) => true
  | _ => false
  end.

(** Every code unit of [s] satisfies [p]. *)
Fixpoint all_chars (p : ascii -> bool) (s : string) : bool :=
  match s with
  | "" => true
  | String c s' => p c && all_chars p s'
  end.

(** The first code unit of [s], if any, fails [p]: [s] cannot extend a run
    of [p]-characters. *)
Definition stops (p : ascii -> bool) (s : string) : bool :=
  match s with
  | "" => true
  | String c _ => negb (p c)
  end.

(** Longest prefix of [s] made of [p]-characters. *)
Fixpoint take_while (p : ascii -> bool) (s : string) : string :=
  match s with
  | "" => ""
  | String c s' => if p c then String c (take_while p s') else ""
  end.

(** ** Regular expressions, as backtracking matchers

    The source uses two regular-expression literals.  They are embedded with
    three combinators in continuation-passing style, which is how a
    backtracking engine runs them: a matcher consumes a prefix of the input
    and hands the consumed text and the rest to its continuation; when the
    continuation fails the matcher tries its next alternative.  Quantifiers
    are greedy: longest alternative first. *)

(** Character classes. *)

Definition in_range (lo hi c : ascii) : bool :=
  (nat_of_ascii lo <=? nat_of_ascii c)%nat && (nat_of_ascii c <=? nat_of_ascii hi)%nat.

(** [\d] *)
Definition is_digit (c : ascii) : bool := in_range "0" "9" c.

(** [\w], and so also the class [[\w\d]] *)
Definition is_word (c : ascii) : bool :=
  in_range "a" "z" c || in_range "A" "Z" c || is_digit c || Ascii.eqb c "_".

(** [[^\/]] *)
Definition not_slash (c : ascii) : bool := negb (Ascii.eqb c "/").

(** [.] without the [s] flag: anything but a line terminator.  Of the four
    line terminators (LF, CR, U+2028, U+2029) two are in the 8-bit range. *)
Definition is_dot (c : ascii) : bool :=
  negb (Ascii.eqb c "010" || Ascii.eqb c "013").

Section Matchers.
Context {R : Type}.

(** A literal: the input must start with [l]. *)
Fixpoint lit (l s : string) (k : string -> option R) : option R :=
  match l with
  | "" => k s
  | String a l' =>
      match s with
      | String b s' => if Ascii.eqb a b then lit l' s' k else None
      | "" => None
      end
  end.

(** [[p]*], greedy: take one more character if possible and let the rest
    of the pattern run; if that fails, stop here. *)
Fixpoint star (p : ascii -> bool) (s : string)
    (k : string -> string -> option R) : option R :=
  match s with
  | String c s' =>
      if p c then
        match star p s' (fun got rest => k (String c got) rest) with
        | Some r => Some r
        | None => k "" s
        end
      else k "" s
  | "" => k "" s
  end.

(** [[p]+]: one character, then [[p]*]. *)
Definition plus (p : ascii -> bool) (s : string)
    (k : string -> string -> option R) : option R :=
  match s with
  | String c s' =>
      if p c then star p s' (fun got rest => k (String c got) rest) else None
  | "" => None
  end.

(** An unanchored pattern is tried at every start position from the left,
    the end of the input included; the first position that matches wins. *)
Fixpoint search (pat : string -> option R) (s : string) : option R :=
  match pat s with
  | Some r => Some r
  | None =>
      match s with
      | String _ s' => search pat s'
      | "" => None
      end
  end.
End Matchers.

(** What [String.prototype.match] returns for the first pattern:
    the whole match and the four captured groups. *)
Record ArnComponents := {
  arn_0 : string;   (* the matched text *)
  arn_1 : string;   (* service       ([\w\d]+) *)
  arn_2 : string;   (* account       (\d+)     *)
  arn_3 : string;   (* resource type ([^\/]+)  *)
  arn_4 : string    (* the rest      ( .* )    *)
}.

(** The pattern [/arn:aws:([\w\d]+)::(\d+):([^\/]+)( .* )/] (the last group
    is written with blanks here, it has none in the source) at one start
    position. *)
Definition arn_pattern (s : string) : option ArnComponents :=
  lit "arn:aws:" s (fun s1 =>
  plus is_word s1 (fun g1 s2 =>
  lit "::" s2 (fun s3 =>
  plus is_digit s3 (fun g2 s4 =>
  lit ":" s4 (fun s5 =>
  plus not_slash s5 (fun g3 s6 =>
  star is_dot s6 (fun g4 _ =>
  Some {| arn_0 := "arn:aws:" +:+ g1 +:+ "::" +:+ g2 +:+ ":" +:+ g3 +:+ g4;
          arn_1 := g1; arn_2 := g2; arn_3 := g3; arn_4 := g4 |}))))))).

(** [callerIdentity.Arn.match(...)] with that pattern. *)
Definition arn_match (s : string) : option ArnComponents :=
  search arn_pattern s.

(** The pattern [/\/([^\/]+)\/( .* )/] at one start position: the two
    captured groups. *)
Definition assumed_role_pattern (s : string) : option (string * string) :=
  lit "/" s (fun s1 =>
  plus not_slash s1 (fun g1 s2 =>
  lit "/" s2 (fun s3 =>
  star is_dot s3 (fun g2 _ => Some (g1, g2))))).

(** [arnComponents[4].match(...)] with that pattern. *)
Definition assumed_role_match (s : string) : option (string * string) :=
  search assumed_role_pattern s.

(** ** Errors *)

(** [throw new Error(msg)] *)
Inductive Error := MkError (message : string).

Definition message (e : Error) : string := let 'MkError m := e in m.

Definition NoIdentity : Error :=
  MkError "No valid AWS calling identity detected".
Definition UnsupportedArn : Error :=
  MkError "Unsupported AWS ARN detected".
Definition UnsupportedAssumedRoleArn : Error :=
  MkError "Unsupported AWS Assumed-Role ARN detected".

(** ** Identity normalisation

    Lines 46 to 62 of [simulatePermissions]: from the caller's ARN to the
    principal ARN that is simulated. *)
Definition normalizeArn (Arn : string) : Error + string :=
  match arn_match Arn with
  | None => inl UnsupportedArn
  | Some arnComponents =>
      if String.eqb (arn_1 arnComponents) "iam"
         && String.eqb (arn_3 arnComponents) "user" then
        inr Arn
      else if String.eqb (arn_1 arnComponents) "sts"
              && String.eqb (arn_3 arnComponents) "assumed-role" then
        match assumed_role_match (arn_4 arnComponents) with
        | None => inl UnsupportedAssumedRoleArn
        | Some (role, _) =>
            inr ("arn:aws:iam::" +:+ arn_2 arnComponents +:+ ":role/" +:+ role)
        end
      else inl UnsupportedArn
  end.

(** ** JSON serialisation

    [getCredentialsHash] serialises a descriptor object with
    [JSON.stringify].  The descriptor only holds objects, strings and
    [null]. *)

#[warnings="-register-all"] Inductive json :=
| JNull
| JString (s : string)
| JObject (members : list (string * json)).

Definition dquote : ascii := "034"%char.

Definition hex_digit (n : nat) : ascii :=
  ascii_of_nat (if (n <? 10)%nat then 48 + n else 87 + n).

(** One code unit inside a JSON string (ECMAScript [QuoteJSONString]):
    the quote and the backslash are escaped, the control characters get
    their short escape or a lowercase [\u00XX], and everything else stands
    for itself. *)
Definition quote_char (c : ascii) : string :=
  if Ascii.eqb c dquote then String "\" (String dquote "")
  else if Ascii.eqb c "\" then "\\"
  else if Ascii.eqb c "008" then "\b"
  else if Ascii.eqb c "009" then "\t"
  else if Ascii.eqb c "010" then "\n"
  else if Ascii.eqb c "012" then "\f"
  else if Ascii.eqb c "013" then "\r"
  else if (nat_of_ascii c <? 32)%nat then
    "\u00" +:+ String (hex_digit (nat_of_ascii c / 16))
                 (String (hex_digit (nat_of_ascii c mod 16)) "")
  else String c "".

Fixpoint quote_body (s : string) : string :=
  match s with
  | "" => ""
  | String c s' => quote_char c +:+ quote_body s'
  end.

Definition QuoteJSONString (s : string) : string :=
  String dquote (quote_body s +:+ String dquote "").

(** [JSON.stringify(j)]: members in the order the object holds them, no
    white space. *)
Fixpoint stringify (j : json) : string :=
  match j with
  | JNull => "null"
  | JString s => QuoteJSONString s
  | JObject ms =>
      "{" +:+
      (fix members (ms : list (string * json)) : string :=
         match ms with
         | [] => ""
         | (k, v) :: rest =>
             QuoteJSONString k +:+ ":" +:+ stringify v +:+
             match rest with
             | [] => ""
             | _ :: _ => "," +:+ members rest
             end
         end) ms
      +:+ "}"
  end.

(** The members of an object as [stringify] writes them, between the
    braces. *)
Definition stringify_members (ms : list (string * json)) : string :=
  (fix members (ms : list (string * json)) : string :=
     match ms with
     | [] => ""
     | (k, v) :: rest =>
         QuoteJSONString k +:+ ":" +:+ stringify v +:+
         match rest with
         | [] => ""
         | _ :: _ => "," +:+ members rest
         end
     end) ms.

(** Reads back one code unit written by [quote_char]; the closing quote of
    a string reads as nothing.  Only the proofs use it. *)
Definition hex_value (c : ascii) : nat :=
  if is_digit c then nat_of_ascii c - 48 else nat_of_ascii c - 87.

Definition unquote_char (s : string) : option (ascii * string) :=
  match s with
  | "" => None
  | String c rest =>
      if Ascii.eqb c dquote then None
      else if Ascii.eqb c "\" then
        match rest with
        | "" => None
        | String e rest' =>
            if Ascii.eqb e dquote then Some (dquote, rest')
            else if Ascii.eqb e "\" then Some ("\"%char, rest')
            else if Ascii.eqb e "b" then Some ("008"%char, rest')
            else if Ascii.eqb e "t" then Some ("009"%char, rest')
            else if Ascii.eqb e "n" then Some ("010"%char, rest')
            else if Ascii.eqb e "f" then Some ("012"%char, rest')
            else if Ascii.eqb e "r" then Some ("013"%char, rest')
            else
              match rest' with
              | String _ (String _ (String h (String l rest''))) =>
                  Some (ascii_of_nat (16 * hex_value h + hex_value l), rest'')
              | _ => None
              end
        end
      else Some (c, rest)
  end.

(** ** Credentials *)

(** What the credential resolver reads: [process.env] and the answer of
    [isInsideLambda()]. *)
Record ProcessEnv := {
  insideLambda : bool;
  REMOTION_AWS_PROFILE : option string;
  REMOTION_AWS_ACCESS_KEY_ID : option string;
  REMOTION_AWS_SECRET_ACCESS_KEY : option string;
  AWS_ACCESS_KEY_ID : option string;
  AWS_SECRET_ACCESS_KEY : option string
}.

(** [AwsCredentialIdentity | AwsCredentialIdentityProvider]: a key pair, or
    the provider that [fromIni] builds for a profile. *)
Inductive Credentials :=
| FromIni (profile : string)
| KeyPair (accessKeyId secretAccessKey : string).

(** The value of a variable that passes an [if (v)] test. *)
Definition if_truthy (v : option string) : option string :=
  if truthy v then v else None.

Definition getCredentials (env : ProcessEnv) : option Credentials :=
  if insideLambda env then None
  else
    match if_truthy (REMOTION_AWS_PROFILE env) with
    | Some profile => Some (FromIni profile)
    | None =>
        match if_truthy (REMOTION_AWS_ACCESS_KEY_ID env),
              if_truthy (REMOTION_AWS_SECRET_ACCESS_KEY env) with
        | Some accessKeyId, Some secretAccessKey =>
            Some (KeyPair accessKeyId secretAccessKey)
        | _, _ =>
            match if_truthy (AWS_ACCESS_KEY_ID env),
                  if_truthy (AWS_SECRET_ACCESS_KEY env) with
            | Some accessKeyId, Some secretAccessKey =>
                Some (KeyPair accessKeyId secretAccessKey)
            | _, _ => None
            end
        end
    end.

(** ** Services and custom credentials *)

(** [keyof ServiceMapping] *)
Inductive Service := s3 | cloudwatch | iam | sts | lambda | servicequotas.

Definition service_name (service : Service) : string :=
  match service with
  | s3 => "s3"
  | cloudwatch => "cloudwatch"
  | iam => "iam"
  | sts => "sts"
  | lambda => "lambda"
  | servicequotas => "servicequotas"
  end.

(** The three members of an object of type [CustomCredentials]. *)
Inductive Member := member_endpoint | member_accessKeyId | member_secretAccessKey.

(** The order in which an object holds its members: the order in which
    they were added to it, which is the caller's choice. *)
Inductive MemberOrder :=
| endpoint_accessKeyId_secretAccessKey
| endpoint_secretAccessKey_accessKeyId
| accessKeyId_endpoint_secretAccessKey
| accessKeyId_secretAccessKey_endpoint
| secretAccessKey_endpoint_accessKeyId
| secretAccessKey_accessKeyId_endpoint.

Definition members_in (order : MemberOrder) : list Member :=
  match order with
  | endpoint_accessKeyId_secretAccessKey =>
      [member_endpoint; member_accessKeyId; member_secretAccessKey]
  | endpoint_secretAccessKey_accessKeyId =>
      [member_endpoint; member_secretAccessKey; member_accessKeyId]
  | accessKeyId_endpoint_secretAccessKey =>
      [member_accessKeyId; member_endpoint; member_secretAccessKey]
  | accessKeyId_secretAccessKey_endpoint =>
      [member_accessKeyId; member_secretAccessKey; member_endpoint]
  | secretAccessKey_endpoint_accessKeyId =>
      [member_secretAccessKey; member_endpoint; member_accessKeyId]
  | secretAccessKey_accessKeyId_endpoint =>
      [member_secretAccessKey; member_accessKeyId; member_endpoint]
  end.

(** An object of type [CustomCredentials]: the values of its three
    members, and the order in which the object holds them.  Reading a
    member does not depend on the order; [JSON.stringify] follows it. *)
Record CustomCredentials := {
  endpoint : string;
  accessKeyId : option string;
  secretAccessKey : option string;
  member_order : MemberOrder
}.

(** [AwsRegion] is declared outside these files; at run time a region is a
    string. *)
Definition AwsRegion := string.

(** ** The cache key *)

Definition json_of_nullable (v : option string) : json :=
  match v with
  | Some s => JString s
  | None => JNull
  end.

(** The own enumerable properties that [...x] copies.  A provider is a
    function and has none. *)
Definition spread_credentials (c : option Credentials) : list (string * json) :=
  match c with
  | Some (KeyPair accessKeyId secretAccessKey) =>
      [("accessKeyId", JString accessKeyId);
       ("secretAccessKey", JString secretAccessKey)]
  | Some (FromIni _) => []
  | None => []
  end.

Definition member_name (m : Member) : string :=
  match m with
  | member_endpoint => "endpoint"
  | member_accessKeyId => "accessKeyId"
  | member_secretAccessKey => "secretAccessKey"
  end.

Definition member_value (c : CustomCredentials) (m : Member) : json :=
  match m with
  | member_endpoint => JString (endpoint c)
  | member_accessKeyId => json_of_nullable (accessKeyId c)
  | member_secretAccessKey => json_of_nullable (secretAccessKey c)
  end.

(** [customCredentials] as [JSON.stringify] sees it: [null], or the
    caller's object with its members in the order in which it holds them.
    Nothing in [getCredentialsHash] sorts or copies them. *)
Definition json_of_customCredentials (cc : option CustomCredentials) : json :=
  match cc with
  | None => JNull
  | Some c =>
      JObject (map (fun m => (member_name m, member_value c m))
                 (members_in (member_order c)))
  end.

(** The object literal that [getCredentialsHash] serialises. *)
Definition descriptor (env : ProcessEnv) (customCredentials : option CustomCredentials)
    (region : AwsRegion) (service : Service) : json :=
  JObject
    [("credentials",
      JObject
        ((match if_truthy (REMOTION_AWS_PROFILE env) with
          | None => []
          | Some profile => [("awsProfile", JString profile)]
          end)
         ++
         (match if_truthy (REMOTION_AWS_PROFILE env) with
          | Some _ => []
          | None => spread_credentials (getCredentials env)
          end)));
     ("customCredentials", json_of_customCredentials customCredentials);
     ("region", JString region);
     ("service", JString (service_name service))].

Section Cache.
(** [createHash('sha256').update(text).digest('base64')] *)
Variable sha256_base64 : string -> string.

(** [checkCredentials()], declared outside these files: [Some e] when it
    throws [e]. *)
Variable checkCredentials : ProcessEnv -> option Error.

Definition getCredentialsHash (env : ProcessEnv)
    (customCredentials : option CustomCredentials)
    (region : AwsRegion) (service : Service) : string :=
  sha256_base64 (stringify (descriptor env customCredentials region service)).

(** ** The client cache *)

(** The argument of [new Client(...)]. *)
Record ClientConfig := {
  cfg_region : string;
  cfg_credentials : option Credentials;
  cfg_endpoint : option string
}.

(** A client object: its identity, the class it was made from and the
    configuration it was made with. *)
Record Client := {
  client_id : nat;
  client_class : Service;
  client_config : ClientConfig
}.

(** The module state: the [_clients] object and the allocator of object
    identities. *)
Record Clients := {
  _clients : gmap string Client;
  next_id : nat
}.

Definition no_clients : Clients := {| _clients := ∅; next_id := 0 |}.

Record ServiceClientInput := {
  in_region : AwsRegion;
  in_service : Service;
  in_customCredentials : option CustomCredentials
}.

(** The configuration built on a cache miss. *)
Definition client_config_for (env : ProcessEnv) (region : AwsRegion)
    (customCredentials : option CustomCredentials) : ClientConfig :=
  match customCredentials with
  | Some cc =>
      {| cfg_region := "us-east-1";
         cfg_credentials :=
           match if_truthy (accessKeyId cc), if_truthy (secretAccessKey cc) with
           | Some a, Some s => Some (KeyPair a s)
           | _, _ => None
           end;
         cfg_endpoint := Some (endpoint cc) |}
  | None =>
      {| cfg_region := region;
         cfg_credentials := getCredentials env;
         cfg_endpoint := None |}
  end.

(** [getServiceClient].  The class is chosen by the service; the
    [TypeError] for an unknown service cannot arise for a [Service].  A key
    is a base64 digest, never the name of a property that [_clients]
    inherits, so [_clients[key]] is a lookup among the stored clients; a
    stored client is an object, hence truthy.  [new Client(...)] is taken
    to succeed: it hands out the next identity. *)
Definition getServiceClient (env : ProcessEnv) (input : ServiceClientInput)
    (st : Clients) : (Error + Client) * Clients :=
  let region := in_region input in
  let service := in_service input in
  let customCredentials := in_customCredentials input in
  let key := getCredentialsHash env customCredentials region service in
  match _clients st !! key with
  | Some client => (inr client, st)
  | None =>
      match checkCredentials env with
      | Some e => (inl e, st)
      | None =>
          let client :=
            {| client_id := next_id st;
               client_class := service;
               client_config := client_config_for env region customCredentials |} in
          (inr client,
           {| _clients := <[key := client]> (_clients st);
              next_id := S (next_id st) |})
      end
  end.

Definition getCloudWatchLogsClient env (region : AwsRegion) :=
  getServiceClient env
    {| in_region := region; in_service := cloudwatch; in_customCredentials := None |}.

Definition getS3Client env (region : AwsRegion)
    (customCredentials : option CustomCredentials) :=
  getServiceClient env
    {| in_region := region; in_service := s3;
       in_customCredentials := customCredentials |}.

Definition getLambdaClient env (region : AwsRegion) :=
  getServiceClient env
    {| in_region := region; in_service := lambda; in_customCredentials := None |}.

Definition getIamClient env (region : AwsRegion) :=
  getServiceClient env
    {| in_region := region; in_service := iam; in_customCredentials := None |}.

Definition getStsClient env (region : AwsRegion) :=
  getServiceClient env
    {| in_region := region; in_service := sts; in_customCredentials := None |}.

Definition getServiceQuotasClient env (region : AwsRegion) :=
  getServiceClient env
    {| in_region := region; in_service := servicequotas;
       in_customCredentials := None |}.

(** The key under which a call looks up and stores its client. *)
Definition key_of (env : ProcessEnv) (input : ServiceClientInput) : string :=
  getCredentialsHash env (in_customCredentials input)
    (in_region input) (in_service input).

(** What the cache keeps true: identities in the cache were handed out
    before, and no two keys hold the same object. *)
Definition cache_inv (st : Clients) : Prop :=
  (forall key client,
      _clients st !! key = Some client -> client_id client < next_id st)
  /\ (forall key1 key2 client1 client2,
      _clients st !! key1 = Some client1 ->
      _clients st !! key2 = Some client2 ->
      client_id client1 = client_id client2 -> key1 = key2).

(** The states of [_clients] that a process can be in: empty when the
    module is loaded, then changed by calls only. *)
Inductive reachable : Clients -> Prop :=
| reachable_init : reachable no_clients
| reachable_call env input st :
    reachable st -> reachable (snd (getServiceClient env input st)).

(** A sequence of calls, one after the other; the state they leave. *)
Fixpoint after_calls (env : ProcessEnv) (calls : list ServiceClientInput)
    (st : Clients) : Clients :=
  match calls with
  | [] => st
  | input :: calls' => after_calls env calls' (snd (getServiceClient env input st))
  end.
End Cache.

(** ** Permission simulation *)

(** [EvalDecision] is one of the strings ['allowed'], ['explicitDeny'],
    ['implicitDeny']. *)
Record SimulationResult := {
  name : string;
  decision : string
}.

(** The response of [GetCallerIdentityCommand], as far as it is read. *)
Record CallerIdentity := {
  Arn : option string
}.

Section Simulation.
Variable sha256_base64 : string -> string.
Variable checkCredentials : ProcessEnv -> option Error.

(** Whatever lies behind the network calls and the callback. *)
Variable World : Type.

(** The type of [resource] in the table of required permissions, which is
    declared outside these files. *)
Variable Resource : Type.

Record RequiredPermission := {
  actions : list string;
  resource : Resource
}.

(** The table imported from [./user-permissions]. *)
Variable requiredPermissions : list RequiredPermission.

Record SimulateRuleInput := {
  actionNames : list string;
  arn : string;
  sim_region : AwsRegion;
  sim_resource : Resource;
  retries : nat
}.

(** [simulateRule], imported from [./simulate-rule]: it fails or returns
    results, and may change the world. *)
Variable simulateRule :
  SimulateRuleInput -> World -> (Error + list SimulationResult) * World.

(** [client.send(new GetCallerIdentityCommand({}))]; the response may be
    missing. *)
Variable send :
  Client -> World -> (Error + option CallerIdentity) * World.

(** The caller's callback; like any function it may throw. *)
Definition Callback := SimulationResult -> World -> (Error + unit) * World.

Record SimulatePermissionsInput := {
  region : AwsRegion;
  onSimulation : option Callback
}.

Record SimulatePermissionsOutput := {
  results : list SimulationResult
}.

(** What the function does to the outside, in order: each call, and for
    [simulateRule] what the call came back with. *)
Inductive Event :=
| CallSend (client : Client)
| CallSimulateRule (input : SimulateRuleInput)
    (outcome : Error + list SimulationResult)
| CallOnSimulation (res : SimulationResult).

Record State := {
  clients : Clients;
  world : World;
  trace : list Event
}.

(** Computations that read and change the state and may throw. *)
Definition M (A : Type) : Type := State -> (Error + A) * State.

Definition ret {A} (a : A) : M A := fun st => (inr a, st).

Definition throw {A} (e : Error) : M A := fun st => (inl e, st).

Definition bind {A B} (c : M A) (k : A -> M B) : M B :=
  fun st =>
    match c st with
    | (inr a, st') => k a st'
    | (inl e, st') => (inl e, st')
    end.

Local Notation "x <- c ;; k" := (bind c (fun x => k))
  (at level 100, c at next level, right associativity).

(** A call to the outside: run on the world and logged.  The cache is
    not part of the world: what the outside does to it through the exported
    getters is not followed here, and a statement about the cache over
    several runs takes such calls as calls made in between. *)
Definition call {A} (ev : Error + A -> Event)
    (f : World -> (Error + A) * World) : M A :=
  fun st =>
    let (r, w) := f (world st) in
    (r, {| clients := clients st; world := w; trace := trace st ++ [ev r] |}).

(** A call into the client cache. *)
Definition with_clients {A} (f : Clients -> (Error + A) * Clients) : M A :=
  fun st =>
    let (r, c) := f (clients st) in
    (r, {| clients := c; world := world st; trace := trace st |}).

(** [options.onSimulation?.(res)] *)
Definition call_onSimulation (cb : option Callback) (res : SimulationResult)
    : M unit :=
  match cb with
  | Some f => call (fun _ => CallOnSimulation res) (f res)
  | None => ret tt
  end.

(** [for (const res of result) { results.push(res); onSimulation?.(res) }] *)
Fixpoint push_results (cb : option Callback) (result : list SimulationResult)
    (results : list SimulationResult) : M (list SimulationResult) :=
  match result with
  | [] => ret results
  | res :: result' =>
      let results := results ++ [res] in
      _ <- call_onSimulation cb res ;;
      push_results cb result' results
  end.

Definition rule_input (arn : string) (region : AwsRegion)
    (per : RequiredPermission) : SimulateRuleInput :=
  {| actionNames := actions per;
     arn := arn;
     sim_region := region;
     sim_resource := resource per;
     retries := 2 |}.

(** [for (const per of requiredPermissions) { ... }] *)
Fixpoint simulate_each (arn : string) (region : AwsRegion)
    (cb : option Callback) (permissions : list RequiredPermission)
    (results : list SimulationResult) : M (list SimulationResult) :=
  match permissions with
  | [] => ret results
  | per :: permissions' =>
      let input := rule_input arn region per in
      result <- call (CallSimulateRule input) (simulateRule input) ;;
      results <- push_results cb result results ;;
      simulate_each arn region cb permissions' results
  end.

Definition simulatePermissions (env : ProcessEnv)
    (options : SimulatePermissionsInput) : M SimulatePermissionsOutput :=
  client <- with_clients
              (getStsClient sha256_base64 checkCredentials env (region options)) ;;
  callerIdentity <- call (fun _ => CallSend client) (send client) ;;
  match callerIdentity with
  | None => throw NoIdentity
  | Some identity =>
      match if_truthy (Arn identity) with
      | None => throw NoIdentity
      | Some Arn =>
          match normalizeArn Arn with
          | inl e => throw e
          | inr arn =>
              results <- simulate_each arn (region options)
                           (onSimulation options) requiredPermissions [] ;;
              ret {| results := results |}
          end
      end
  end.

(** The callback events for the results of one permission. *)
Definition callback_events (cb : option Callback)
    (result : list SimulationResult) : list Event :=
  match cb with
  | Some _ => map CallOnSimulation result
  | None => []
  end.

(** The events of a loop in which [simulateRule] returned [returned] for
    the permissions, in order: for each permission the call, then the
    callback on each of its results. *)
Definition expected_events (arn : string) (region : AwsRegion)
    (cb : option Callback) (permissions : list RequiredPermission)
    (returned : list (list SimulationResult)) : list Event :=
  concat
    (zip_with
       (fun per result =>
          CallSimulateRule (rule_input arn region per) (inr result)
          :: callback_events cb result)
       permissions returned).
End Simulation.

Arguments CallSend {Resource}.
Arguments CallSimulateRule {Resource}.
Arguments CallOnSimulation {Resource}.
Arguments Build_State {World Resource}.
Arguments clients {World Resource}.
Arguments world {World Resource}.
Arguments trace {World Resource}.
Arguments Build_RequiredPermission {Resource}.
Arguments actions {Resource}.
Arguments resource {Resource}.
Arguments Build_SimulateRuleInput {Resource}.
Arguments actionNames {Resource}.
Arguments arn {Resource}.
Arguments sim_region {Resource}.
Arguments sim_resource {Resource}.
Arguments retries {Resource}.
Arguments Build_SimulatePermissionsInput {World}.
Arguments region {World}.
Arguments onSimulation {World}.
Arguments ret {World Resource A}.
Arguments throw {World Resource A}.
Arguments bind {World Resource A B}.
Arguments call {World Resource A}.
Arguments with_clients {World Resource A}.
Arguments call_onSimulation {World Resource}.
Arguments push_results {World Resource}.
Arguments rule_input {Resource}.
Arguments simulate_each {World Resource}.
Arguments simulatePermissions sha256_base64 checkCredentials {World Resource}.
Arguments callback_events {World Resource}.
Arguments expected_events {World Resource}.

(** ** Shapes of ARNs, for the statements *)

(** A non-empty run of characters of a class. *)
Definition run_of (p : ascii -> bool) (s : string) : Prop :=
  s <> "" /\ all_chars p s = true.

(** A character that can stand in a name between two slashes on one
    line. *)
Definition is_name_char (c : ascii) : bool := not_slash c && is_dot c.

(** [arn:aws:<service>::<account>:<resourceType><rest>] *)
Definition arn_of (service account resourceType rest : string) : string :=
  "arn:aws:" +:+ service +:+ "::" +:+ account +:+ ":" +:+ resourceType +:+ rest.

(** [arn:aws:iam::<account>:user/<name>] *)
Definition iam_user_arn (account name : string) : string :=
  "arn:aws:iam::" +:+ account +:+ ":user/" +:+ name.

(** [arn:aws:sts::<account>:assumed-role/<roleName>/<sessionName>] *)
Definition assumed_role_arn (account roleName sessionName : string) : string :=
  "arn:aws:sts::" +:+ account +:+ ":assumed-role/" +:+ roleName +:+ "/" +:+ sessionName.

(** [arn:aws:iam::<account>:role/<roleName>] *)
Definition role_arn (account roleName : string) : string :=
  "arn:aws:iam::" +:+ account +:+ ":role/" +:+ roleName.

(** The text after the resource type holds a role segment closed by a
    slash: somewhere in it a slash, a non-empty name without a slash, and a
    second slash.  What follows the second slash, the session segment, may
    be empty. *)
Definition has_role_segment (rest : string) : Prop :=
  exists pre roleName sessionName,
    rest = pre +:+ "/" +:+ roleName +:+ "/" +:+ sessionName
    /\ run_of not_slash roleName.

(** How often a character occurs. *)
Fixpoint count_char (a : ascii) (s : string) : nat :=
  match s with
  | "" => 0
  | String c s' => (if Ascii.eqb a c then 1 else 0) + count_char a s'
  end.

(** ** A small scenario, for the examples

    Two or three required permissions; an identity service that reports an
    assumed-role session; a simulator that allows every action it is asked
    about, and one that fails on the Lambda permission; a callback that
    notes what it is told.  The world is the callback's notes. *)

Definition example_env : ProcessEnv :=
  {| insideLambda := false;
     REMOTION_AWS_PROFILE := None;
     REMOTION_AWS_ACCESS_KEY_ID := Some "AKIATOOL";
     REMOTION_AWS_SECRET_ACCESS_KEY := Some "secret";
     AWS_ACCESS_KEY_ID := None;
     AWS_SECRET_ACCESS_KEY := None |}.

Definition P1 : RequiredPermission string :=
  {| actions := ["iam:SimulatePrincipalPolicy"; "iam:PassRole"];
     resource := "*" |}.

Definition P2 : RequiredPermission string :=
  {| actions := ["lambda:GetFunction"];
     resource := "arn:aws:lambda:*:*:function:remotion-render-*" |}.

Definition P3 : RequiredPermission string :=
  {| actions := ["s3:ListAllMyBuckets"];
     resource := "*" |}.

Definition allowed (action : string) : SimulationResult :=
  {| name := action; decision := "allowed" |}.

Definition example_send (client : Client) (w : list SimulationResult)
    : (Error + option CallerIdentity) * list SimulationResult :=
  (inr (Some {| Arn := Some "arn:aws:sts::123456789012:assumed-role/MyRole/session-1" |}),
   w).

Definition example_simulateRule (input : SimulateRuleInput string)
    (w : list SimulationResult)
    : (Error + list SimulationResult) * list SimulationResult :=
  (inr (map allowed (actionNames input)), w).

Definition failing_simulateRule (input : SimulateRuleInput string)
    (w : list SimulationResult)
    : (Error + list SimulationResult) * list SimulationResult :=
  if bool_decide (actionNames input = ["lambda:GetFunction"])
  then (inl (MkError "AccessDenied"), w)
  else example_simulateRule input w.

(** An IAM-user ARN inside other text, and an identity service that
    reports it. *)
Definition surrounded_arn : string :=
  "caller: arn:aws:iam::123456789012:user/alice"
  +:+ String "010" "(second line)".

Definition example_send_user (client : Client) (w : list SimulationResult)
    : (Error + option CallerIdentity) * list SimulationResult :=
  (inr (Some {| Arn := Some surrounded_arn |}), w).

Definition example_callback : Callback (list SimulationResult) :=
  fun res w => (inr tt, w ++ [res]).

Definition example_options : SimulatePermissionsInput (list SimulationResult) :=
  {| region := "eu-central-1"; onSimulation := Some example_callback |}.

Definition example_start : State (list SimulationResult) string :=
  {| clients := no_clients; world := []; trace := [] |}.

(** ** The choice of the client class

    Lines 107 to 133 of [getServiceClient]: the chain of comparisons that
    picks the class, on the service as the string it is at run time. *)

(** [throw new TypeError(msg)] *)
Inductive TypeError := MkTypeError (message : string).

Definition client_class_of (service : string) : TypeError + Service :=
  if String.eqb service "cloudwatch" then inr cloudwatch
  else if String.eqb service "lambda" then inr lambda
  else if String.eqb service "s3" then inr s3
  else if String.eqb service "iam" then inr iam
  else if String.eqb service "sts" then inr sts
  else if String.eqb service "servicequotas" then inr servicequotas
  else inl (MkTypeError ("unknown client " +:+ service)).

(** [getServiceClient] as JavaScript runs it, whatever string it is given
    for the service: the class is picked first, then the call goes on as
    [getServiceClient] does. *)
Definition getServiceClient_by_name (sha256_base64 : string -> string)
    (checkCredentials : ProcessEnv -> option Error) (env : ProcessEnv)
    (region : AwsRegion) (service : string)
    (customCredentials : option CustomCredentials) (st : Clients)
    : (TypeError + (Error + Client)) * Clients :=
  match client_class_of service with
  | inl e => (inl e, st)
  | inr class =>
      let (r, st') :=
        getServiceClient sha256_base64 checkCredentials env
          {| in_region := region; in_service := class;
             in_customCredentials := customCredentials |} st in
      (inr r, st')
  end.

(** ** The leftmost match, for the statements *)

(** [[\/]] *)
Definition is_slash (c : ascii) : bool := Ascii.eqb c "/".

(** A match of the ARN pattern starts at the start of [s]: the text there
    is [arn:aws:], a non-empty run of word characters, [::], a non-empty
    run of digits, [:] and a character that is not a slash. *)
Definition arn_starts (s : string) : Prop :=
  exists service account c rest,
    s = "arn:aws:" +:+ service +:+ "::" +:+ account +:+ ":" +:+ String c rest
    /\ run_of is_word service /\ run_of is_digit account /\ not_slash c = true.

(** No match of the ARN pattern starts inside [before] when [text]
    follows it. *)
Definition no_arn_starts_in (before text : string) : Prop :=
  forall pre suf,
    before = pre +:+ suf -> suf <> "" -> ~ arn_starts (suf +:+ text).

(** The leftmost match of the ARN pattern in [s]: it starts after
    [before], its four groups are [service], [account], [resourceType] and
    [rest], and [tail] is what follows it.  The third group runs to the
    first slash or to the end of the input, the last group to the end of
    the line. *)
Definition leftmost_arn
    (s before service account resourceType rest tail : string) : Prop :=
  s = before +:+ arn_of service account resourceType (rest +:+ tail)
  /\ no_arn_starts_in before (arn_of service account resourceType (rest +:+ tail))
  /\ run_of is_word service /\ run_of is_digit account
  /\ run_of not_slash resourceType
  /\ stops not_slash (rest +:+ tail) = true
  /\ all_chars is_dot rest = true
  /\ stops is_dot tail = true.

(** ** More about the cache, for the statements *)

(** Every stored client was built for a call whose key it is stored
    under. *)
Definition built_for_key (sha256_base64 : string -> string) (env : ProcessEnv)
    (st : Clients) : Prop :=
  forall key client,
    _clients st !! key = Some client ->
    exists input,
      key = key_of sha256_base64 env input
      /\ client_class client = in_service input
      /\ client_config client
         = client_config_for env (in_region input) (in_customCredentials input).

(** The events of the loop: calls of [simulateRule] and of the callback. *)
Definition is_loop_event {Resource : Type} (ev : Event Resource) : bool :=
  match ev with
  | CallSend _ => false
  | CallSimulateRule _ _ => true
  | CallOnSimulation _ => true
  end.

(** ** More of the scenario *)

(** A callback that throws when it is told about [iam:PassRole]. *)
Definition throwing_callback : Callback (list SimulationResult) :=
  fun res w =>
    if String.eqb (name res) "iam:PassRole"
    then (inl (MkError "callback failed"), w)
    else (inr tt, w ++ [res]).

(** An identity service that answers with an empty ARN. *)
Definition example_send_empty (client : Client) (w : list SimulationResult)
    : (Error + option CallerIdentity) * list SimulationResult :=
  (inr (Some {| Arn := Some "" |}), w).

(** An identity service that reports an EC2 instance. *)
Definition example_send_ec2 (client : Client) (w : list SimulationResult)
    : (Error + option CallerIdentity) * list SimulationResult :=
  (inr (Some {| Arn := Some "arn:aws:ec2::123456789012:instance/i-abc" |}), w).

(** A credential check that fails. *)
Definition failing_checkCredentials (env : ProcessEnv) : option Error :=
  Some (MkError "no credentials").

(* ===================================================================== *)
(** * Part II: properties                                                *)
(* ===================================================================== *)

(** ** The model on sample inputs *)

Example normalizeArn_user :
  normalizeArn "arn:aws:iam::123456789012:user/alice"
  = inr "arn:aws:iam::123456789012:user/alice".
Proof. reflexivity. Qed.

Example normalizeArn_role :
  normalizeArn "arn:aws:sts::123456789012:assumed-role/MyRole/session-1"
  = inr "arn:aws:iam::123456789012:role/MyRole".
Proof. reflexivity. Qed.

Example normalizeArn_ec2 :
  normalizeArn "arn:aws:ec2::123456789012:instance/i-abc" = inl UnsupportedArn.
Proof. reflexivity. Qed.

Example normalizeArn_onlyrole :
  normalizeArn "arn:aws:sts::123456789012:assumed-role/onlyrole"
  = inl UnsupportedAssumedRoleArn.
Proof. reflexivity. Qed.

(** An account is required: the second group needs a digit. *)
Example normalizeArn_no_account :
  normalizeArn "arn:aws:iam:::user/alice" = inl UnsupportedArn.
Proof. reflexivity. Qed.

(** The third group runs to the first slash, over a line break too; the
    last group stops at a line break. *)
Example arn_match_groups :
  arn_match ("arn:aws:iam::123:us" +:+ String "010" "er/alice"
             +:+ String "010" "more")
  = Some {| arn_0 := "arn:aws:iam::123:us" +:+ String "010" "er/alice";
            arn_1 := "iam"; arn_2 := "123";
            arn_3 := "us" +:+ String "010" "er";
            arn_4 := "/alice" |}.
Proof. reflexivity. Qed.

(** An empty session name is accepted. *)
Example normalizeArn_empty_session :
  normalizeArn "arn:aws:sts::123456789012:assumed-role/MyRole/"
  = inr "arn:aws:iam::123456789012:role/MyRole".
Proof. reflexivity. Qed.

(** Escapes in a JSON string. *)
Example QuoteJSONString_escapes :
  QuoteJSONString ("a\b" +:+ String "010" (String "031" (String dquote "/")))
  = String dquote ("a\\b\n\u001f\" +:+ String dquote ("/" +:+ String dquote "")).
Proof. reflexivity. Qed.

Example stringify_object :
  stringify (JObject [("a", JNull); ("b", JObject [])])
  = "{" +:+ String dquote ("a" +:+ String dquote (":null," +:+
      String dquote ("b" +:+ String dquote ":{}}"))).
Proof. reflexivity. Qed.

Example getCredentials_tool_pair :
  getCredentials example_env = Some (KeyPair "AKIATOOL" "secret").
Proof. reflexivity. Qed.

(** ** Strings *)

Lemma append_cons (c : ascii) (s t : string) :
  String c s +:+ t = String c (s +:+ t).
Proof. reflexivity. Qed.

Lemma append_nil_l (s : string) : "" +:+ s = s.
Proof. reflexivity. Qed.

Lemma append_nil_r (s : string) : s +:+ "" = s.
Proof. induction s as [|c s IH]; [reflexivity|]. now rewrite append_cons, IH. Qed.

Lemma append_assoc (s t u : string) : (s +:+ t) +:+ u = s +:+ (t +:+ u).
Proof.
  induction s as [|c s IH]; [reflexivity|].
  now rewrite !append_cons, IH.
Qed.

Lemma all_chars_app (p : ascii -> bool) (s t : string) :
  all_chars p (s +:+ t) = all_chars p s && all_chars p t.
Proof.
  induction s as [|c s IH]; [reflexivity|].
  rewrite append_cons. simpl. rewrite IH. now rewrite andb_assoc.
Qed.

Lemma take_while_split (p : ascii -> bool) (s : string) :
  exists rest, s = take_while p s +:+ rest.
Proof.
  induction s as [|c s [rest IH]].
  - now exists "".
  - simpl. destruct (p c).
    + exists rest. rewrite append_cons. now f_equal.
    + now exists (String c s).
Qed.

Lemma take_while_run (p : ascii -> bool) (run rest : string) :
  all_chars p run = true ->
  take_while p (run +:+ rest) = run +:+ take_while p rest.
Proof.
  induction run as [|c run IH]; [reflexivity|].
  rewrite !append_cons. simpl. intros [Hc Hrun]%andb_true_iff.
  rewrite Hc. f_equal. now apply IH.
Qed.

(** ** The matchers *)

Section MatcherFacts.
Context {R : Type}.
Implicit Types (k : string -> option R) (kk : string -> string -> option R).

Lemma lit_app l s k : lit l (l +:+ s) k = k s.
Proof.
  induction l as [|a l IH]; [reflexivity|].
  rewrite append_cons. simpl. now rewrite Ascii.eqb_refl.
Qed.

Lemma lit_Some l s k r :
  lit l s k = Some r -> exists s', s = l +:+ s' /\ k s' = Some r.
Proof.
  revert s. induction l as [|a l IH]; intros s H.
  - now exists s.
  - destruct s as [|b s]; [discriminate|]. simpl in H.
    destruct (Ascii.eqb a b) eqn:E; [|discriminate].
    apply Ascii.eqb_eq in E as <-.
    destruct (IH _ H) as (s' & -> & Hk). now exists s'.
Qed.

(** Greedy: when the rest of the pattern accepts the longest run, that is
    the match. *)
Lemma star_longest p run rest kk r :
  all_chars p run = true -> stops p rest = true ->
  kk run rest = Some r ->
  star p (run +:+ rest) kk = Some r.
Proof.
  revert kk. induction run as [|c run IH]; intros kk Hrun Hrest Hk.
  - destruct rest as [|c rest]; [exact Hk|].
    simpl in *. now destruct (p c).
  - simpl in Hrun. apply andb_true_iff in Hrun as [Hc Hrun].
    rewrite append_cons. simpl. rewrite Hc.
    now rewrite (IH (fun got rest0 => kk (String c got) rest0)).
Qed.

Lemma plus_longest p run rest kk r :
  run <> "" -> all_chars p run = true -> stops p rest = true ->
  kk run rest = Some r ->
  plus p (run +:+ rest) kk = Some r.
Proof.
  destruct run as [|c run]; [congruence|]. intros _ Hrun Hrest Hk.
  simpl in Hrun. apply andb_true_iff in Hrun as [Hc Hrun].
  rewrite append_cons. unfold plus. rewrite Hc.
  now apply star_longest.
Qed.

(** Whatever split is taken, the consumed text is a run of the class and
    the rest of the pattern accepted the split. *)
Lemma star_Some p s kk r :
  star p s kk = Some r ->
  exists got rest, s = got +:+ rest /\ all_chars p got = true /\ kk got rest = Some r.
Proof.
  revert kk. induction s as [|c s IH]; intros kk H.
  - now exists "", "".
  - simpl in H. destruct (p c) eqn:Hc.
    + destruct (star p s (fun got rest => kk (String c got) rest)) as [r'|] eqn:E.
      * injection H as ->. apply IH in E as (got & rest & -> & Hgot & Hk).
        exists (String c got), rest. simpl. now rewrite Hc, Hgot.
      * now exists "", (String c s).
    + now exists "", (String c s).
Qed.

Lemma plus_Some p s kk r :
  plus p s kk = Some r ->
  exists got rest,
    s = got +:+ rest /\ got <> "" /\ all_chars p got = true /\ kk got rest = Some r.
Proof.
  destruct s as [|c s]; [discriminate|]. unfold plus.
  destruct (p c) eqn:Hc; [|discriminate]. intros H.
  apply star_Some in H as (got & rest & -> & Hgot & Hk).
  exists (String c got), rest. simpl. now rewrite Hc, Hgot.
Qed.

(** If some split is accepted by the rest of the pattern, the matcher
    succeeds (with that split or a longer one). *)
Lemma star_succeeds p got rest kk :
  all_chars p got = true -> is_Some (kk got rest) ->
  is_Some (star p (got +:+ rest) kk).
Proof.
  revert kk. induction got as [|c got IH]; intros kk Hgot Hk.
  - destruct rest as [|c rest]; [exact Hk|]. simpl.
    destruct (p c); [|exact Hk].
    destruct (star p rest _); [eauto | exact Hk].
  - simpl in Hgot. apply andb_true_iff in Hgot as [Hc Hgot].
    rewrite append_cons. simpl. rewrite Hc.
    destruct (IH (fun got0 rest0 => kk (String c got0) rest0) Hgot Hk) as [r ->].
    eauto.
Qed.

Lemma plus_succeeds p got rest kk :
  got <> "" -> all_chars p got = true -> is_Some (kk got rest) ->
  is_Some (plus p (got +:+ rest) kk).
Proof.
  destruct got as [|c got]; [congruence|]. intros _ Hgot Hk.
  simpl in Hgot. apply andb_true_iff in Hgot as [Hc Hgot].
  rewrite append_cons. unfold plus. rewrite Hc. now apply star_succeeds.
Qed.

(** A trailing [[p]*] whose match ends the pattern takes the longest run. *)
Lemma star_last p s (f : string -> R) :
  star p s (fun got _ => Some (f got)) = Some (f (take_while p s)).
Proof.
  revert f. induction s as [|c s IH]; intros f; [reflexivity|].
  simpl. destruct (p c); [|reflexivity].
  now rewrite (IH (fun got => f (String c got))).
Qed.

Lemma search_here (pat : string -> option R) s r :
  pat s = Some r -> search pat s = Some r.
Proof. intros H. destruct s; simpl; now rewrite H. Qed.

Lemma search_Some (pat : string -> option R) s r :
  search pat s = Some r -> exists pre suf, s = pre +:+ suf /\ pat suf = Some r.
Proof.
  induction s as [|c s IH]; simpl.
  - destruct (pat "") eqn:E; [|discriminate]. intros [= ->]. now exists "", "".
  - destruct (pat (String c s)) eqn:E.
    + intros [= ->]. now exists "", (String c s).
    + intros (pre & suf & -> & H)%IH. now exists (String c pre), suf.
Qed.

Lemma search_succeeds (pat : string -> option R) pre suf :
  is_Some (pat suf) -> is_Some (search pat (pre +:+ suf)).
Proof.
  intros [r H]. induction pre as [|c pre IH].
  - exists r. now apply search_here.
  - rewrite append_cons. simpl. destruct (pat (String c (pre +:+ suf))); eauto.
Qed.
End MatcherFacts.

(** ** The ARN pattern *)

Lemma count_char_app a s t :
  count_char a (s +:+ t) = count_char a s + count_char a t.
Proof.
  induction s as [|c s IH]; [reflexivity|].
  rewrite append_cons. simpl. rewrite IH. lia.
Qed.

Lemma has_role_segment_slashes rest :
  has_role_segment rest -> 2 <= count_char "/" rest.
Proof.
  intros (pre & roleName & sessionName & -> & _).
  rewrite !count_char_app. simpl. lia.
Qed.

(** On a well-formed ARN the pattern matches at the start and captures the
    service, the account and the resource type; the last group runs to the
    end of the line. *)
Lemma arn_pattern_arn_of service account resourceType rest :
  run_of is_word service -> run_of is_digit account ->
  run_of not_slash resourceType -> stops not_slash rest = true ->
  arn_pattern (arn_of service account resourceType rest)
  = Some {| arn_0 := arn_of service account resourceType (take_while is_dot rest);
            arn_1 := service; arn_2 := account; arn_3 := resourceType;
            arn_4 := take_while is_dot rest |}.
Proof.
  intros [Hs1 Hs2] [Ha1 Ha2] [Ht1 Ht2] Hrest.
  unfold arn_of, arn_pattern. rewrite lit_app.
  apply plus_longest; [assumption..|reflexivity|]. rewrite lit_app.
  apply plus_longest; [assumption..|reflexivity|]. rewrite lit_app.
  apply plus_longest; [assumption..|].
  apply (star_last is_dot rest
           (fun g4 => {| arn_0 := "arn:aws:" +:+ service +:+ "::" +:+ account
                                   +:+ ":" +:+ resourceType +:+ g4;
                         arn_1 := service; arn_2 := account;
                         arn_3 := resourceType; arn_4 := g4 |})).
Qed.

Lemma arn_match_arn_of service account resourceType rest :
  run_of is_word service -> run_of is_digit account ->
  run_of not_slash resourceType -> stops not_slash rest = true ->
  arn_match (arn_of service account resourceType rest)
  = Some {| arn_0 := arn_of service account resourceType (take_while is_dot rest);
            arn_1 := service; arn_2 := account; arn_3 := resourceType;
            arn_4 := take_while is_dot rest |}.
Proof. intros. apply search_here. now apply arn_pattern_arn_of. Qed.

(** Any match of the ARN pattern has the shape of the pattern. *)
Lemma arn_pattern_Some s m :
  arn_pattern s = Some m ->
  exists rest,
    s = arn_of (arn_1 m) (arn_2 m) (arn_3 m) rest
    /\ run_of is_word (arn_1 m) /\ run_of is_digit (arn_2 m)
    /\ run_of not_slash (arn_3 m).
Proof.
  unfold arn_pattern. intros H.
  apply lit_Some in H as (s1 & -> & H).
  apply plus_Some in H as (g1 & s2 & -> & Hg1 & Hg1' & H).
  apply lit_Some in H as (s3 & -> & H).
  apply plus_Some in H as (g2 & s4 & -> & Hg2 & Hg2' & H).
  apply lit_Some in H as (s5 & -> & H).
  apply plus_Some in H as (g3 & s6 & -> & Hg3 & Hg3' & H).
  apply star_Some in H as (g4 & s7 & -> & _ & [= <-]).
  exists (g4 +:+ s7). simpl. unfold arn_of, run_of. auto 10.
Qed.

(** The pattern accepts any text of its shape, whatever follows the
    resource type. *)
Lemma arn_pattern_succeeds service account resourceType rest :
  run_of is_word service -> run_of is_digit account ->
  run_of not_slash resourceType ->
  is_Some (arn_pattern (arn_of service account resourceType rest)).
Proof.
  intros [Hs1 Hs2] [Ha1 Ha2] [Ht1 Ht2].
  unfold arn_of, arn_pattern. rewrite lit_app.
  apply plus_succeeds; [assumption..|]. rewrite lit_app.
  apply plus_succeeds; [assumption..|]. rewrite lit_app.
  apply plus_succeeds; [assumption..|].
  rewrite (star_last is_dot rest
             (fun g4 => {| arn_0 := "arn:aws:" +:+ service +:+ "::" +:+ account
                                     +:+ ":" +:+ resourceType +:+ g4;
                           arn_1 := service; arn_2 := account;
                           arn_3 := resourceType; arn_4 := g4 |})).
  eauto.
Qed.

(** On a remainder [/<roleName>/...] the second pattern captures the role
    name. *)
Lemma assumed_role_match_role roleName rest :
  run_of not_slash roleName ->
  exists session,
    assumed_role_match ("/" +:+ roleName +:+ "/" +:+ rest) = Some (roleName, session).
Proof.
  intros [Hr1 Hr2]. exists (take_while is_dot rest).
  apply search_here. unfold assumed_role_pattern. rewrite lit_app.
  apply plus_longest; [assumption..|reflexivity|]. rewrite lit_app.
  apply (star_last is_dot rest (fun g2 => (roleName, g2))).
Qed.

(** Any match of the second pattern sits on a role and a session
    segment. *)
Lemma assumed_role_match_Some s r :
  assumed_role_match s = Some r -> has_role_segment s.
Proof.
  intros (pre & suf & -> & H)%search_Some. unfold assumed_role_pattern in H.
  apply lit_Some in H as (s1 & -> & H).
  apply plus_Some in H as (g1 & s2 & -> & Hg1 & Hg1' & H).
  apply lit_Some in H as (s3 & -> & H).
  exists pre, g1, s3. split; [reflexivity|]. now split.
Qed.

Lemma all_chars_name p :
  all_chars is_name_char p = true ->
  all_chars not_slash p = true /\ all_chars is_dot p = true.
Proof.
  induction p as [|c p IH]; [easy|]. simpl. unfold is_name_char at 1.
  intros [[H1 H2]%andb_true_iff [H3 H4]%IH]%andb_true_iff.
  now rewrite H1, H2, H3, H4.
Qed.

Lemma arn_of_app service account resourceType rest suf :
  arn_of service account resourceType rest +:+ suf
  = arn_of service account resourceType (rest +:+ suf).
Proof. unfold arn_of. now rewrite !append_assoc. Qed.

Lemma normalizeArn_iam_user account name :
  run_of is_digit account ->
  normalizeArn (iam_user_arn account name) = inr (iam_user_arn account name).
Proof.
  intros Ha.
  change (iam_user_arn account name)
    with (arn_of "iam" account "user" ("/" +:+ name)).
  unfold normalizeArn.
  rewrite arn_match_arn_of; [reflexivity | now split | assumption | now split | reflexivity].
Qed.

Lemma normalizeArn_assumed_role account roleName sessionName :
  run_of is_digit account -> run_of is_name_char roleName ->
  normalizeArn (assumed_role_arn account roleName sessionName)
  = inr (role_arn account roleName).
Proof.
  intros Ha [Hr1 [Hr2 Hr3]%all_chars_name].
  change (assumed_role_arn account roleName sessionName)
    with (arn_of "sts" account "assumed-role"
            ("/" +:+ roleName +:+ "/" +:+ sessionName)).
  unfold normalizeArn.
  rewrite arn_match_arn_of; [| now split | assumption | now split | reflexivity].
  cbn [arn_1 arn_2 arn_3 arn_4].
  rewrite (take_while_run is_dot "/") by reflexivity.
  rewrite (take_while_run is_dot roleName) by assumption.
  rewrite (take_while_run is_dot "/") by reflexivity.
  destruct (assumed_role_match_role roleName (take_while is_dot sessionName))
    as [session ->]; [now split|].
  reflexivity.
Qed.

(** C2.  Identity normalisation maps the two recognised principal shapes as
    the claim says.  For every account (a non-empty run of digits) and every
    name, the IAM-user ARN [arn:aws:iam::<account>:user/<name>] comes out
    unchanged.  For every account, every role name (non-empty, without a
    slash or a line break) and every session name,
    [arn:aws:sts::<account>:assumed-role/<roleName>/<sessionName>] comes out
    as [arn:aws:iam::<account>:role/<roleName>].  The two examples of the
    claim are instances. *)
Theorem normalizeArn_recognized_shapes :
  (forall account name,
      run_of is_digit account ->
      normalizeArn (iam_user_arn account name) = inr (iam_user_arn account name))
  /\ (forall account roleName sessionName,
      run_of is_digit account -> run_of is_name_char roleName ->
      normalizeArn (assumed_role_arn account roleName sessionName)
      = inr (role_arn account roleName))
  /\ normalizeArn "arn:aws:iam::123456789012:user/alice"
     = inr "arn:aws:iam::123456789012:user/alice"
  /\ normalizeArn "arn:aws:sts::123456789012:assumed-role/MyRole/session-1"
     = inr "arn:aws:iam::123456789012:role/MyRole".
Proof.
  split; [exact normalizeArn_iam_user|].
  split; [exact normalizeArn_assumed_role|].
  split; reflexivity.
Qed.

Lemma normalizeArn_recognized_shapes_witness :
  (run_of is_digit "123456789012" /\ run_of is_name_char "MyRole")
  /\ normalizeArn (iam_user_arn "123456789012" "alice")
     = inr (iam_user_arn "123456789012" "alice")
  /\ normalizeArn (assumed_role_arn "123456789012" "MyRole" "session-1")
     = inr (role_arn "123456789012" "MyRole").
Proof.
  assert (Ha : run_of is_digit "123456789012") by (split; [discriminate | reflexivity]).
  assert (Hr : run_of is_name_char "MyRole") by (split; [discriminate | reflexivity]).
  split; [now split|]. split.
  - exact (proj1 normalizeArn_recognized_shapes "123456789012" "alice" Ha).
  - exact (proj1 (proj2 normalizeArn_recognized_shapes)
             "123456789012" "MyRole" "session-1" Ha Hr).
Defined.

Lemma normalizeArn_other_pair service account resourceType rest :
  run_of is_word service -> run_of is_digit account ->
  run_of not_slash resourceType -> stops not_slash rest = true ->
  ~ (service = "iam" /\ resourceType = "user") ->
  ~ (service = "sts" /\ resourceType = "assumed-role") ->
  normalizeArn (arn_of service account resourceType rest) = inl UnsupportedArn.
Proof.
  intros Hs Ha Ht Hrest Hiam Hsts. unfold normalizeArn.
  rewrite arn_match_arn_of by assumption. cbn [arn_1 arn_2 arn_3 arn_4].
  destruct (String.eqb_spec service "iam"), (String.eqb_spec resourceType "user"),
    (String.eqb_spec service "sts"), (String.eqb_spec resourceType "assumed-role");
    simpl; tauto.
Qed.

Lemma normalizeArn_captured_pair s :
  match arn_match s with
  | Some m =>
      ~ (arn_1 m = "iam" /\ arn_3 m = "user")
      /\ ~ (arn_1 m = "sts" /\ arn_3 m = "assumed-role")
  | None => True
  end ->
  normalizeArn s = inl UnsupportedArn.
Proof.
  unfold normalizeArn. destruct (arn_match s) as [m|]; [|reflexivity].
  intros [Hiam Hsts].
  destruct (String.eqb_spec (arn_1 m) "iam"), (String.eqb_spec (arn_3 m) "user"),
    (String.eqb_spec (arn_1 m) "sts"), (String.eqb_spec (arn_3 m) "assumed-role");
    simpl; tauto.
Qed.

(** Without a role segment closed by a slash on the first line of the
    remainder, an sts assumed-role ARN is rejected with the error of its
    own. *)
Lemma normalizeArn_no_role_segment account rest :
  run_of is_digit account -> stops not_slash rest = true ->
  ~ has_role_segment (take_while is_dot rest) ->
  normalizeArn (arn_of "sts" account "assumed-role" rest)
  = inl UnsupportedAssumedRoleArn.
Proof.
  intros Ha Hrest Hno. unfold normalizeArn.
  rewrite arn_match_arn_of; [| now split | assumption | now split | assumption].
  cbn [arn_1 arn_2 arn_3 arn_4]. simpl.
  destruct (assumed_role_match (take_while is_dot rest)) as [[role session]|] eqn:E;
    [|reflexivity].
  exfalso. apply Hno. now apply assumed_role_match_Some in E.
Qed.

Lemma has_role_segment_first_line rest :
  has_role_segment (take_while is_dot rest) -> has_role_segment rest.
Proof.
  intros (pre & roleName & sessionName & E & Hrole).
  destruct (take_while_split is_dot rest) as [tail Htail].
  exists pre, roleName, (sessionName +:+ tail). split; [|assumption].
  rewrite Htail at 1. rewrite E. now rewrite !append_assoc.
Qed.

Lemma normalizeArn_no_session account rest :
  run_of is_digit account -> stops not_slash rest = true ->
  ~ has_role_segment rest ->
  normalizeArn (arn_of "sts" account "assumed-role" rest)
  = inl UnsupportedAssumedRoleArn.
Proof.
  intros Ha Hrest Hno. apply normalizeArn_no_role_segment; [assumption..|].
  intros H. now apply Hno, has_role_segment_first_line.
Qed.

(** On [/<roleName>/...] the second pattern matches at the start. *)
Lemma assumed_role_pattern_role roleName rest :
  run_of not_slash roleName ->
  assumed_role_pattern ("/" +:+ roleName +:+ "/" +:+ rest)
  = Some (roleName, take_while is_dot rest).
Proof.
  intros [Hr1 Hr2]. unfold assumed_role_pattern. rewrite lit_app.
  apply plus_longest; [assumption..|reflexivity|]. rewrite lit_app.
  apply (star_last is_dot rest (fun g2 => (roleName, g2))).
Qed.

(** With a role segment closed by a slash on the first line of the
    remainder, an sts assumed-role ARN is accepted, whatever follows the
    second slash. *)
Lemma normalizeArn_role_segment account rest :
  run_of is_digit account -> stops not_slash rest = true ->
  has_role_segment (take_while is_dot rest) ->
  exists roleName,
    normalizeArn (arn_of "sts" account "assumed-role" rest)
    = inr (role_arn account roleName).
Proof.
  intros Ha Hrest (pre & roleName & sessionName & E & Hrole). unfold normalizeArn.
  rewrite arn_match_arn_of; [| now split | assumption | now split | assumption].
  cbn [arn_1 arn_2 arn_3 arn_4]. simpl. rewrite E. unfold assumed_role_match.
  destruct (search_succeeds assumed_role_pattern pre
              ("/" +:+ roleName +:+ "/" +:+ sessionName)) as [[role session] ->].
  { exists (roleName, take_while is_dot sessionName).
    now apply assumed_role_pattern_role. }
  now exists role.
Qed.

(** C5, amended.  Identity normalisation rejects with two distinct errors.
    An ARN [arn:aws:<service>::<account>:<resourceType><rest>] whose pair of
    service and resource type is neither (iam, user) nor
    (sts, assumed-role) fails with the unsupported-identity error; so does
    any input whose match captures such a pair, and any input without a
    match.  An sts assumed-role ARN whose remainder does not hold a role
    segment closed by a slash fails with the assumed-role error; it fails
    so exactly when the first line of its remainder holds none.  A session
    segment is not required: the assumed-role ARN that ends with the slash
    after the role name is accepted and gives the role ARN.  The two errors
    differ, and the two examples of the claim are instances. *)
Theorem normalizeArn_rejections :
  (forall service account resourceType rest,
      run_of is_word service -> run_of is_digit account ->
      run_of not_slash resourceType -> stops not_slash rest = true ->
      ~ (service = "iam" /\ resourceType = "user") ->
      ~ (service = "sts" /\ resourceType = "assumed-role") ->
      normalizeArn (arn_of service account resourceType rest) = inl UnsupportedArn)
  /\ (forall s,
      match arn_match s with
      | Some m =>
          ~ (arn_1 m = "iam" /\ arn_3 m = "user")
          /\ ~ (arn_1 m = "sts" /\ arn_3 m = "assumed-role")
      | None => True
      end ->
      normalizeArn s = inl UnsupportedArn)
  /\ (forall account rest,
      run_of is_digit account -> stops not_slash rest = true ->
      ~ has_role_segment rest ->
      normalizeArn (arn_of "sts" account "assumed-role" rest)
      = inl UnsupportedAssumedRoleArn)
  /\ (forall account rest,
      run_of is_digit account -> stops not_slash rest = true ->
      normalizeArn (arn_of "sts" account "assumed-role" rest)
      = inl UnsupportedAssumedRoleArn
      <-> ~ has_role_segment (take_while is_dot rest))
  /\ (forall account roleName,
      run_of is_digit account -> run_of is_name_char roleName ->
      normalizeArn (assumed_role_arn account roleName "")
      = inr (role_arn account roleName))
  /\ message UnsupportedArn <> message UnsupportedAssumedRoleArn
  /\ normalizeArn "arn:aws:ec2::123456789012:instance/i-abc" = inl UnsupportedArn
  /\ normalizeArn "arn:aws:sts::123456789012:assumed-role/onlyrole"
     = inl UnsupportedAssumedRoleArn.
Proof.
  split; [exact normalizeArn_other_pair|].
  split; [exact normalizeArn_captured_pair|].
  split; [exact normalizeArn_no_session|].
  split.
  { intros account rest Ha Hrest. split.
    - intros H Hseg.
      destruct (normalizeArn_role_segment account rest Ha Hrest Hseg) as [roleName E].
      congruence.
    - now apply normalizeArn_no_role_segment. }
  split; [intros account roleName; apply normalizeArn_assumed_role|].
  split; [discriminate|]. split; reflexivity.
Qed.

Lemma onlyrole_has_no_session : ~ has_role_segment "/onlyrole".
Proof. intros H%has_role_segment_slashes. simpl in H. lia. Qed.

(** C5 as stated fails for an sts assumed-role ARN that ends with the
    slash after the role name: its remainder holds a role segment and no
    session segment (the session name is empty in every reading of it), and
    the ARN is not rejected; it gives the role ARN. *)
Lemma normalizeArn_accepts_missing_session :
  "arn:aws:sts::123456789012:assumed-role/MyRole/"
  = assumed_role_arn "123456789012" "MyRole" ""
  /\ (forall roleName sessionName,
        "arn:aws:sts::123456789012:assumed-role/MyRole/"
        = assumed_role_arn "123456789012" roleName sessionName ->
        sessionName = "")
  /\ normalizeArn "arn:aws:sts::123456789012:assumed-role/MyRole/"
     = inr "arn:aws:iam::123456789012:role/MyRole"
  /\ normalizeArn "arn:aws:sts::123456789012:assumed-role/MyRole/"
     <> inl UnsupportedAssumedRoleArn.
Proof.
  split; [reflexivity|]. split; [|split; [reflexivity | discriminate]].
  intros roleName sessionName H. unfold assumed_role_arn in H.
  apply (inj (String.app "arn:aws:sts::123456789012:assumed-role/")) in H.
  do 7 (destruct roleName as [|? roleName];
        [try discriminate H | rewrite append_cons in H; try discriminate H;
                              injection H as _ H]).
  all: rewrite ?append_cons, ?append_nil_l in H; try discriminate H.
  - now injection H.
  - destruct roleName; [|rewrite append_cons in H]; discriminate H.
Qed.

Lemma normalizeArn_rejections_witness :
  normalizeArn (arn_of "ec2" "123456789012" "instance" "/i-abc") = inl UnsupportedArn
  /\ normalizeArn (arn_of "sts" "123456789012" "assumed-role" "/onlyrole")
     = inl UnsupportedAssumedRoleArn
  /\ normalizeArn (assumed_role_arn "123456789012" "MyRole" "")
     = inr (role_arn "123456789012" "MyRole").
Proof.
  assert (Ha : run_of is_digit "123456789012") by (split; [discriminate | reflexivity]).
  split; [|split].
  - apply (proj1 normalizeArn_rejections);
      [split; [discriminate | reflexivity] | exact Ha
      | split; [discriminate | reflexivity] | reflexivity
      | intros [? _]; discriminate | intros [? _]; discriminate].
  - apply (proj1 (proj2 (proj2 normalizeArn_rejections)));
      [exact Ha | reflexivity | exact onlyrole_has_no_session].
  - apply (proj1 (proj2 (proj2 (proj2 (proj2 normalizeArn_rejections)))));
      [exact Ha | split; [discriminate | reflexivity]].
Defined.

(** ** The pattern is not anchored *)

Lemma arn_match_surrounded pre s suf :
  is_Some (arn_match s) -> is_Some (arn_match (pre +:+ s +:+ suf)).
Proof.
  intros [m (before & hit & -> & Hhit)%search_Some].
  apply arn_pattern_Some in Hhit as (rest & -> & Hs & Ha & Ht).
  rewrite append_assoc, arn_of_app, <- append_assoc.
  apply search_succeeds. now apply arn_pattern_succeeds.
Qed.

Lemma normalizeArn_iam_user_whole s m :
  arn_match s = Some m -> arn_1 m = "iam" -> arn_3 m = "user" ->
  normalizeArn s = inr s.
Proof. unfold normalizeArn. now intros -> -> ->. Qed.

(** C10 as stated fails.  Each of these inputs holds a match of the
    pattern that is a proper part of it, and is rejected: an ec2 ARN after
    two letters, and an IAM-user ARN after a prefix in which an earlier
    match starts. *)
Lemma unanchored_match_still_rejected :
  (exists m, arn_match "xxarn:aws:ec2::123456789012:instance/i-abc" = Some m
             /\ arn_0 m <> "xxarn:aws:ec2::123456789012:instance/i-abc"
             /\ normalizeArn "xxarn:aws:ec2::123456789012:instance/i-abc"
                = inl UnsupportedArn)
  /\ (exists m,
         arn_match ("xarn:aws:ec2::1:i/" +:+ iam_user_arn "123456789012" "alice")
         = Some m
         /\ arn_0 m <> "xarn:aws:ec2::1:i/" +:+ iam_user_arn "123456789012" "alice"
         /\ normalizeArn ("xarn:aws:ec2::1:i/" +:+ iam_user_arn "123456789012" "alice")
            = inl UnsupportedArn).
Proof.
  split; eexists; (split; [reflexivity|]); split; (discriminate || reflexivity).
Qed.

(** ** JSON texts determine their values *)

Lemma unquote_quote_char c rest :
  unquote_char (quote_char c +:+ rest) = Some (c, rest).
Proof. destruct c as [[] [] [] [] [] [] [] []]; reflexivity. Qed.

Lemma quote_body_inj s1 s2 r1 r2 :
  quote_body s1 +:+ String dquote r1 = quote_body s2 +:+ String dquote r2 ->
  s1 = s2 /\ r1 = r2.
Proof.
  revert s2. induction s1 as [|c1 s1 IH]; intros [|c2 s2] H.
  - now injection H.
  - apply (f_equal unquote_char) in H. simpl quote_body in H.
    rewrite append_assoc, unquote_quote_char in H. discriminate.
  - apply (f_equal unquote_char) in H. simpl quote_body in H.
    rewrite append_assoc, unquote_quote_char in H. discriminate.
  - apply (f_equal unquote_char) in H. simpl quote_body in H.
    rewrite !append_assoc, !unquote_quote_char in H.
    injection H as -> H. apply IH in H as [-> ->]. now split.
Qed.

Lemma QuoteJSONString_inj s1 s2 r1 r2 :
  QuoteJSONString s1 +:+ r1 = QuoteJSONString s2 +:+ r2 -> s1 = s2 /\ r1 = r2.
Proof.
  unfold QuoteJSONString. rewrite !append_cons, !append_assoc, !append_cons.
  intros [= H]. now apply quote_body_inj.
Qed.

Lemma stringify_JObject ms :
  stringify (JObject ms) = "{" +:+ stringify_members ms +:+ "}".
Proof. reflexivity. Qed.

Lemma stringify_members_cons k v rest :
  stringify_members ((k, v) :: rest)
  = QuoteJSONString k +:+ ":" +:+ stringify v +:+
    match rest with
    | [] => ""
    | _ :: _ => "," +:+ stringify_members rest
    end.
Proof. now destruct rest. Qed.

(** Induction on JSON values, with the members of an object covered. *)
Lemma json_members_ind (P : json -> Prop) :
  P JNull ->
  (forall s, P (JString s)) ->
  (forall ms, Forall (fun kv => P (snd kv)) ms -> P (JObject ms)) ->
  forall j, P j.
Proof.
  intros Hnull Hstr Hobj.
  fix IH 1. intros [|s|ms]; [exact Hnull | apply Hstr |].
  apply Hobj. induction ms as [|[k v] ms IHms]; constructor; [apply IH | exact IHms].
Qed.

(** A JSON text can be told from whatever follows it. *)
Lemma stringify_inj_app j1 :
  forall j2 r1 r2,
    stringify j1 +:+ r1 = stringify j2 +:+ r2 -> j1 = j2 /\ r1 = r2.
Proof.
  induction j1 as [|s1|ms1 IH] using json_members_ind; intros [|s2|ms2] r1 r2 H;
    try discriminate H.
  - apply (inj (String.app "null")) in H. now split.
  - simpl stringify in H. apply QuoteJSONString_inj in H as [-> ->]. now split.
  - rewrite !stringify_JObject, !append_assoc in H.
    apply (inj (String.app "{")) in H.
    enough (ms1 = ms2 /\ r1 = r2) as [-> ->] by now split.
    revert ms2 H. induction IH as [|[k1 v1] ms1 Hv _ IHms]; intros [|[k2 v2] ms2] H.
    + apply (inj (String.app "}")) in H. now split.
    + rewrite stringify_members_cons in H. discriminate H.
    + rewrite stringify_members_cons in H. discriminate H.
    + rewrite !stringify_members_cons, !append_assoc in H.
      apply QuoteJSONString_inj in H as [-> H].
      apply (inj (String.app ":")) in H.
      simpl in Hv. apply Hv in H as [-> H].
      destruct ms1 as [|kv1 ms1], ms2 as [|kv2 ms2].
      * apply (inj (String.app "}")) in H. now subst.
      * discriminate H.
      * discriminate H.
      * rewrite !append_assoc in H. apply (inj (String.app ",")) in H.
        apply IHms in H as [-> ->]. now split.
Qed.

Lemma stringify_inj j1 j2 : stringify j1 = stringify j2 -> j1 = j2.
Proof.
  intros H. apply (stringify_inj_app j1 j2 "" ""). now rewrite !append_nil_r.
Qed.

(** ** Credential resolution *)

Lemma if_truthy_Some v s : if_truthy v = Some s -> v = Some s /\ s <> "".
Proof.
  unfold if_truthy, truthy. destruct v as [[|c v]|]; try discriminate.
  intros [= <-]. now split.
Qed.

Lemma if_truthy_nonempty s : s <> "" -> if_truthy (Some s) = Some s.
Proof. now destruct s. Qed.

Lemma if_truthy_None v : if_truthy v = None <-> v = None \/ v = Some "".
Proof.
  unfold if_truthy, truthy. destruct v as [[|c v]|]; split; auto; try discriminate.
  intros [|]; discriminate.
Qed.


(** C8 as stated fails when a variable is set to the empty string: the
    profile variable is set here, outside Lambda, and no named-profile
    provider comes back; the generic key pair is returned instead. *)
Lemma getCredentials_empty_profile_not_selected :
  let env := {| insideLambda := false;
                REMOTION_AWS_PROFILE := Some "";
                REMOTION_AWS_ACCESS_KEY_ID := None;
                REMOTION_AWS_SECRET_ACCESS_KEY := None;
                AWS_ACCESS_KEY_ID := Some "AKIAEXAMPLE";
                AWS_SECRET_ACCESS_KEY := Some "secret" |} in
  is_Some (REMOTION_AWS_PROFILE env)
  /\ getCredentials env = Some (KeyPair "AKIAEXAMPLE" "secret")
  /\ forall profile, getCredentials env <> Some (FromIni profile).
Proof. split; [eexists; reflexivity|]. split; [reflexivity | discriminate]. Qed.

(** C8, amended.  Credential resolution selects one source by fixed
    priority, where a variable counts only when it is set to a non-empty
    value.  Inside Lambda the result is [undefined] whatever the variables
    hold.  Otherwise a non-empty profile variable gives the named-profile
    provider; otherwise two non-empty tool-specific variables give that key
    pair; otherwise two non-empty generic variables give that key pair;
    otherwise the result is [undefined]. *)
Theorem getCredentials_priority (env : ProcessEnv) :
  (insideLambda env = true -> getCredentials env = None)
  /\ (insideLambda env = false ->
      forall profile,
        REMOTION_AWS_PROFILE env = Some profile -> profile <> "" ->
        getCredentials env = Some (FromIni profile))
  /\ (insideLambda env = false ->
      if_truthy (REMOTION_AWS_PROFILE env) = None ->
      forall a s,
        REMOTION_AWS_ACCESS_KEY_ID env = Some a -> a <> "" ->
        REMOTION_AWS_SECRET_ACCESS_KEY env = Some s -> s <> "" ->
        getCredentials env = Some (KeyPair a s))
  /\ (insideLambda env = false ->
      if_truthy (REMOTION_AWS_PROFILE env) = None ->
      if_truthy (REMOTION_AWS_ACCESS_KEY_ID env) = None
      \/ if_truthy (REMOTION_AWS_SECRET_ACCESS_KEY env) = None ->
      forall a s,
        AWS_ACCESS_KEY_ID env = Some a -> a <> "" ->
        AWS_SECRET_ACCESS_KEY env = Some s -> s <> "" ->
        getCredentials env = Some (KeyPair a s))
  /\ (insideLambda env = false ->
      if_truthy (REMOTION_AWS_PROFILE env) = None ->
      if_truthy (REMOTION_AWS_ACCESS_KEY_ID env) = None
      \/ if_truthy (REMOTION_AWS_SECRET_ACCESS_KEY env) = None ->
      if_truthy (AWS_ACCESS_KEY_ID env) = None
      \/ if_truthy (AWS_SECRET_ACCESS_KEY env) = None ->
      getCredentials env = None).
Proof.
  unfold getCredentials. repeat split.
  - now intros ->.
  - intros -> profile -> Hp. now rewrite if_truthy_nonempty.
  - intros -> -> a s -> Ha -> Hs. now rewrite !if_truthy_nonempty.
  - intros -> -> Htool a s -> Ha -> Hs. rewrite !if_truthy_nonempty by assumption.
    destruct Htool as [-> | ->]; [reflexivity|].
    now destruct (if_truthy (REMOTION_AWS_ACCESS_KEY_ID env)).
  - intros -> -> Htool Hgen.
    assert (match if_truthy (AWS_ACCESS_KEY_ID env),
                  if_truthy (AWS_SECRET_ACCESS_KEY env) with
            | Some a, Some s => Some (KeyPair a s)
            | _, _ => None
            end = None) as ->.
    { destruct Hgen as [-> | ->]; [reflexivity|].
      now destruct (if_truthy (AWS_ACCESS_KEY_ID env)). }
    destruct Htool as [-> | ->]; [reflexivity|].
    now destruct (if_truthy (REMOTION_AWS_ACCESS_KEY_ID env)).
Qed.

Lemma getCredentials_priority_witness :
  let env := {| insideLambda := false;
                REMOTION_AWS_PROFILE := Some "";
                REMOTION_AWS_ACCESS_KEY_ID := Some "AKIATOOL";
                REMOTION_AWS_SECRET_ACCESS_KEY := None;
                AWS_ACCESS_KEY_ID := Some "AKIAEXAMPLE";
                AWS_SECRET_ACCESS_KEY := Some "secret" |} in
  getCredentials env = Some (KeyPair "AKIAEXAMPLE" "secret").
Proof.
  intros env.
  apply (proj1 (proj2 (proj2 (proj2 (getCredentials_priority env)))));
    [reflexivity | reflexivity | right; reflexivity
    | reflexivity | discriminate | reflexivity | discriminate].
Defined.

(** ** The cache key *)

Lemma service_name_inj s1 s2 : service_name s1 = service_name s2 -> s1 = s2.
Proof. destruct s1, s2; (reflexivity || discriminate). Qed.

Lemma json_of_nullable_inj v1 v2 :
  json_of_nullable v1 = json_of_nullable v2 -> v1 = v2.
Proof. destruct v1, v2; simpl; congruence. Qed.

(** The serialised members tell the order in which they were written. *)
Lemma json_of_customCredentials_order c1 c2 :
  json_of_customCredentials (Some c1) = json_of_customCredentials (Some c2) ->
  member_order c1 = member_order c2.
Proof.
  destruct c1 as [e1 a1 s1 o1], c2 as [e2 a2 s2 o2].
  destruct o1, o2; simpl; intros H; (reflexivity || discriminate H).
Qed.

Lemma json_of_customCredentials_inj c1 c2 :
  json_of_customCredentials c1 = json_of_customCredentials c2 -> c1 = c2.
Proof.
  destruct c1 as [c1|], c2 as [c2|]; try discriminate; [|reflexivity].
  intros H. pose proof (json_of_customCredentials_order c1 c2 H) as Ho.
  destruct c1 as [e1 a1 s1 o1], c2 as [e2 a2 s2 o2]. simpl in Ho. subst o2.
  assert (e1 = e2 /\ json_of_nullable a1 = json_of_nullable a2
          /\ json_of_nullable s1 = json_of_nullable s2) as (-> & Ha & Hs)
    by (destruct o1; simpl in H; injection H; auto).
  apply json_of_nullable_inj in Ha, Hs. now subst.
Qed.

(** The credentials member of the descriptor. *)
Lemma descriptor_inj env1 env2 c1 c2 r1 r2 s1 s2 :
  descriptor env1 c1 r1 s1 = descriptor env2 c2 r2 s2 ->
  c1 = c2 /\ r1 = r2 /\ s1 = s2.
Proof.
  unfold descriptor.
  intros [= _ Hc%json_of_customCredentials_inj -> Hs%service_name_inj]. auto.
Qed.

Section Fingerprint.
Variable sha256_base64 : string -> string.


(** The digest is taken to be free of collisions. *)
Hypothesis sha256_base64_inj :
  forall a b, sha256_base64 a = sha256_base64 b -> a = b.

Lemma getCredentialsHash_descriptor env1 env2 c1 c2 r1 r2 s1 s2 :
  getCredentialsHash sha256_base64 env1 c1 r1 s1
  = getCredentialsHash sha256_base64 env2 c2 r2 s2 ->
  descriptor env1 c1 r1 s1 = descriptor env2 c2 r2 s2.
Proof. intros H. now apply stringify_inj, sha256_base64_inj. Qed.

End Fingerprint.




(** ** The client cache *)

Section CacheFacts.
Variable sha256_base64 : string -> string.
Variable checkCredentials : ProcessEnv -> option Error.

Local Abbreviation getServiceClient :=
  (getServiceClient sha256_base64 checkCredentials).
Local Abbreviation after_calls := (after_calls sha256_base64 checkCredentials).
Local Abbreviation reachable := (reachable sha256_base64 checkCredentials).

Local Abbreviation key_of := (key_of sha256_base64).

(** The three ways a call can go. *)
Lemma getServiceClient_cases env input st :
  (exists client,
      _clients st !! key_of env input = Some client
      /\ getServiceClient env input st = (inr client, st))
  \/ (exists e,
      _clients st !! key_of env input = None
      /\ checkCredentials env = Some e
      /\ getServiceClient env input st = (inl e, st))
  \/ (_clients st !! key_of env input = None
      /\ checkCredentials env = None
      /\ getServiceClient env input st
         = (inr {| client_id := next_id st;
                   client_class := in_service input;
                   client_config :=
                     client_config_for env (in_region input)
                       (in_customCredentials input) |},
            {| _clients :=
                 <[key_of env input :=
                     {| client_id := next_id st;
                        client_class := in_service input;
                        client_config :=
                          client_config_for env (in_region input)
                            (in_customCredentials input) |}]> (_clients st);
               next_id := S (next_id st) |})).
Proof.
  unfold getServiceClient, key_of.
  destruct (_clients st !! _) as [client|] eqn:E; [left; eauto|].
  destruct (checkCredentials env) as [e|]; [right; left; eauto | right; right; auto].
Qed.

(** A returned client sits in the cache under the key of the call. *)
Lemma getServiceClient_cached env input st client :
  fst (getServiceClient env input st) = inr client ->
  _clients (snd (getServiceClient env input st)) !! key_of env input = Some client.
Proof.
  destruct (getServiceClient_cases env input st)
    as [(c & Hc & ->) | [(e & _ & _ & ->) | (_ & _ & ->)]]; simpl.
  - now intros [= <-].
  - discriminate.
  - intros [= <-]. apply lookup_insert_eq.
Qed.

(** Entries are never replaced or removed. *)
Lemma getServiceClient_keeps env input st key client :
  _clients st !! key = Some client ->
  _clients (snd (getServiceClient env input st)) !! key = Some client.
Proof.
  intros H.
  destruct (getServiceClient_cases env input st)
    as [(c & Hc & ->) | [(e & _ & _ & ->) | (Hmiss & _ & ->)]]; simpl; try assumption.
  rewrite lookup_insert_ne; [assumption | congruence].
Qed.

Lemma after_calls_keeps env calls st key client :
  _clients st !! key = Some client ->
  _clients (after_calls env calls st) !! key = Some client.
Proof.
  revert st. induction calls as [|input calls IH]; intros st H; [assumption|].
  simpl. apply IH. now apply getServiceClient_keeps.
Qed.

Lemma getServiceClient_inv env input st :
  cache_inv st -> cache_inv (snd (getServiceClient env input st)).
Proof.
  intros [Hfresh Hdistinct].
  destruct (getServiceClient_cases env input st)
    as [(c & Hc & ->) | [(e & _ & _ & ->) | (Hmiss & _ & ->)]]; simpl;
    [now split | now split |].
  split; simpl.
  - intros key client. rewrite lookup_insert.
    case_decide as Hk; [intros [= <-]; simpl; lia|].
    intros H%Hfresh. lia.
  - intros key1 key2 client1 client2. rewrite !lookup_insert.
    repeat case_decide; subst; try congruence.
    + intros [= <-] Hc%Hfresh. simpl. lia.
    + intros Hc%Hfresh [= <-]. simpl. lia.
    + apply Hdistinct.
Qed.

Lemma reachable_inv st : reachable st -> cache_inv st.
Proof.
  induction 1 as [|env input st _ IH].
  - split; intros *; unfold no_clients; simpl; rewrite lookup_empty; discriminate.
  - now apply getServiceClient_inv.
Qed.

Lemma after_calls_reachable env calls st :
  reachable st -> reachable (after_calls env calls st).
Proof.
  revert st. induction calls as [|input calls IH]; intros st H; [assumption|].
  simpl. apply IH. now constructor.
Qed.

(** A second call with the same arguments, after any calls in between. *)
Lemma getServiceClient_again env input st client calls :
  fst (getServiceClient env input st) = inr client ->
  let st' := after_calls env calls (snd (getServiceClient env input st)) in
  getServiceClient env input st' = (inr client, st').
Proof.
  intros H%getServiceClient_cached st'.
  apply (after_calls_keeps env calls) in H. fold st' in H.
  destruct (getServiceClient_cases env input st')
    as [(c & Hc & ->) | [(e & Hmiss & _) | (Hmiss & _)]]; congruence.
Qed.

(** Calls under different keys return different objects. *)
Lemma getServiceClient_distinct env input1 input2 st client1 client2 calls :
  reachable st ->
  key_of env input1 <> key_of env input2 ->
  fst (getServiceClient env input1 st) = inr client1 ->
  fst (getServiceClient env input2
         (after_calls env calls (snd (getServiceClient env input1 st))))
  = inr client2 ->
  client_id client1 <> client_id client2.
Proof.
  intros Hst Hkeys H1 H2.
  apply getServiceClient_cached in H1.
  apply (after_calls_keeps env calls) in H1.
  set (st' := after_calls env calls (snd (getServiceClient env input1 st))) in *.
  assert (Hinv : cache_inv st').
  { apply reachable_inv, after_calls_reachable. now constructor. }
  destruct Hinv as [Hfresh Hdistinct].
  destruct (getServiceClient_cases env input2 st')
    as [(c & Hc & E) | [(e & _ & _ & E) | (_ & _ & E)]];
    rewrite E in H2; simpl in H2; try discriminate; injection H2 as <-.
  - intros Hid. apply Hkeys. eapply Hdistinct; eassumption.
  - apply Hfresh in H1. simpl. lia.
Qed.

Lemma getServiceClient_returns env input st :
  checkCredentials env = None ->
  exists client, fst (getServiceClient env input st) = inr client.
Proof.
  intros Hcheck.
  destruct (getServiceClient_cases env input st)
    as [(c & _ & ->) | [(e & _ & He & _) | (_ & _ & ->)]]; simpl; eauto.
  congruence.
Qed.

(** C9, amended.  On a cache miss, once the credential check has passed,
    a new client is built and returned.  With custom credentials it is
    built with the region ['us-east-1'] whatever region was asked for, with
    the custom endpoint, and with the custom key pair when the access key
    and the secret are both non-null and non-empty, else with [undefined]
    credentials.  Without custom credentials it is built with the
    requested region and the credentials that [getCredentials] resolves. *)
Theorem getServiceClient_miss_config env input st :
  _clients st !! key_of env input = None ->
  checkCredentials env = None ->
  exists client,
    fst (getServiceClient env input st) = inr client
    /\ client_id client = next_id st
    /\ client_class client = in_service input
    /\ match in_customCredentials input with
       | Some cc =>
           cfg_region (client_config client) = "us-east-1"
           /\ cfg_endpoint (client_config client) = Some (endpoint cc)
           /\ (forall a s,
                  accessKeyId cc = Some a -> a <> "" ->
                  secretAccessKey cc = Some s -> s <> "" ->
                  cfg_credentials (client_config client) = Some (KeyPair a s))
           /\ (accessKeyId cc = None \/ accessKeyId cc = Some ""
               \/ secretAccessKey cc = None \/ secretAccessKey cc = Some "" ->
               cfg_credentials (client_config client) = None)
       | None =>
           cfg_region (client_config client) = in_region input
           /\ cfg_credentials (client_config client) = getCredentials env
           /\ cfg_endpoint (client_config client) = None
       end.
Proof.
  intros Hmiss Hcheck.
  destruct (getServiceClient_cases env input st)
    as [(c & Hc & _) | [(e & _ & He & _) | (_ & _ & ->)]]; [congruence..|].
  eexists. split; [reflexivity|]. simpl. split; [reflexivity|]. split; [reflexivity|].
  destruct (in_customCredentials input) as [cc|]; simpl; [|auto].
  split; [reflexivity|]. split; [reflexivity|]. split.
  - intros a s -> Ha -> Hs. now rewrite !if_truthy_nonempty.
  - intros H.
    assert (if_truthy (accessKeyId cc) = None \/ if_truthy (secretAccessKey cc) = None)
      as [-> | ->]; [|reflexivity|].
    { rewrite !if_truthy_None. tauto. }
    now destruct (if_truthy (accessKeyId cc)).
Qed.

Section CollisionFree.
Hypothesis sha256_base64_inj :
  forall a b, sha256_base64 a = sha256_base64 b -> a = b.

End CollisionFree.
End CacheFacts.

(** C9 as stated fails when a custom key is the empty string: both keys
    are non-null here, and the client is built with [undefined]
    credentials. *)
Lemma getServiceClient_empty_custom_key :
  let cc := {| endpoint := "http://localhost:9000";
               accessKeyId := Some "";
               secretAccessKey := Some "secret";
               member_order := endpoint_accessKeyId_secretAccessKey |} in
  let env := {| insideLambda := false;
                REMOTION_AWS_PROFILE := None;
                REMOTION_AWS_ACCESS_KEY_ID := None;
                REMOTION_AWS_SECRET_ACCESS_KEY := None;
                AWS_ACCESS_KEY_ID := None;
                AWS_SECRET_ACCESS_KEY := None |} in
  let input := {| in_region := "eu-central-1"; in_service := s3;
                  in_customCredentials := Some cc |} in
  accessKeyId cc <> None /\ secretAccessKey cc <> None
  /\ _clients no_clients !! key_of (fun text => text) env input = None
  /\ exists client,
       fst (getServiceClient (fun text => text) (fun _ => None) env input no_clients)
       = inr client
       /\ cfg_credentials (client_config client) = None.
Proof.
  intros cc env input. split; [discriminate|]. split; [discriminate|].
  split; [apply lookup_empty|].
  unfold getServiceClient, no_clients. cbn [_clients]. rewrite lookup_empty.
  eexists. split; reflexivity.
Qed.

Lemma getServiceClient_miss_config_witness :
  let cc := {| endpoint := "http://localhost:9000";
               accessKeyId := Some "minio";
               secretAccessKey := Some "secret";
               member_order := endpoint_accessKeyId_secretAccessKey |} in
  let env := {| insideLambda := false;
                REMOTION_AWS_PROFILE := None;
                REMOTION_AWS_ACCESS_KEY_ID := None;
                REMOTION_AWS_SECRET_ACCESS_KEY := None;
                AWS_ACCESS_KEY_ID := None;
                AWS_SECRET_ACCESS_KEY := None |} in
  let input := {| in_region := "eu-central-1"; in_service := s3;
                  in_customCredentials := Some cc |} in
  exists client,
    fst (getServiceClient (fun text => text) (fun _ => None) env input no_clients)
    = inr client
    /\ cfg_region (client_config client) = "us-east-1"
    /\ cfg_endpoint (client_config client) = Some "http://localhost:9000"
    /\ cfg_credentials (client_config client) = Some (KeyPair "minio" "secret").
Proof.
  intros cc env input.
  destruct (getServiceClient_miss_config (fun text => text) (fun _ => None)
              env input no_clients (lookup_empty _) eq_refl)
    as (client & Hret & _ & _ & Hregion & Hendpoint & Hpair & _).
  exists client. split; [exact Hret|]. split; [exact Hregion|].
  split; [exact Hendpoint|].
  apply (Hpair "minio" "secret"); [reflexivity | discriminate | reflexivity | discriminate].
Defined.



(** ** Permission simulation *)

Section SimulationFacts.
Variable sha256_base64 : string -> string.
Variable checkCredentials : ProcessEnv -> option Error.
Variable World : Type.
Variable Resource : Type.
Variable requiredPermissions : list (RequiredPermission Resource).
Variable simulateRule :
  SimulateRuleInput Resource -> World -> (Error + list SimulationResult) * World.
Variable send : Client -> World -> (Error + option CallerIdentity) * World.

Implicit Types (cb : option (Callback World)) (st : State World Resource).
Implicit Types (per : RequiredPermission Resource).

Lemma expected_events_cons arn region cb per permissions result returned :
  expected_events arn region cb (per :: permissions) (result :: returned)
  = CallSimulateRule (rule_input arn region per) (inr result)
    :: callback_events cb result
    ++ expected_events arn region cb permissions returned.
Proof. reflexivity. Qed.

(** No event of a loop that went through records a failed call. *)
Lemma expected_events_no_failure arn region cb permissions returned
    (input : SimulateRuleInput Resource) e :
  ~ In (CallSimulateRule input (inl e))
      (expected_events arn region cb permissions returned).
Proof.
  revert returned.
  induction permissions as [|per permissions IH]; intros [|result returned];
    try (now intros []).
  rewrite expected_events_cons. simpl. rewrite in_app_iff.
  intros [H | [H | H]]; [discriminate | | now apply IH in H].
  destruct cb; simpl in H; [|assumption].
  apply in_map_iff in H as (res & H & _). discriminate.
Qed.

Lemma callback_events_no_failure cb result (input : SimulateRuleInput Resource) e :
  ~ In (CallSimulateRule input (inl e)) (callback_events cb result).
Proof.
  destruct cb; simpl; [|tauto].
  intros (res & H & _)%in_map_iff. discriminate.
Qed.

(** The inner loop pushes the results in order and calls the callback on
    each; it stops only when the callback throws. *)
Lemma push_results_run cb result :
  forall results st,
    (exists st',
        push_results cb result results st = (inr (results ++ result), st')
        /\ trace st' = trace st ++ callback_events cb result)
    \/ (exists e st' done res,
        push_results cb result results st = (inl e, st')
        /\ trace st' = trace st ++ callback_events cb done ++ [CallOnSimulation res]).
Proof.
  induction result as [|res result IH]; intros results st.
  - left. exists st. simpl. unfold ret. destruct cb; simpl; now rewrite !app_nil_r.
  - simpl. unfold bind. destruct cb as [f|].
    + unfold call_onSimulation, call.
      destruct (f res (world st)) as [[e|[]] w] eqn:Ef.
      * right. exists e, {| clients := clients st; world := w;
                            trace := trace st ++ [CallOnSimulation res] |},
          [], res.
        now split.
      * destruct (IH (results ++ [res])
                    {| clients := clients st; world := w;
                       trace := trace st ++ [CallOnSimulation res] |})
          as [(st' & -> & Ht) | (e & st' & done & r & -> & Ht)].
        -- left. exists st'. rewrite <- app_assoc. split; [reflexivity|].
           rewrite Ht. simpl. now rewrite <- app_assoc.
        -- right. exists e, st', (res :: done), r.
           split; [reflexivity|].
           rewrite Ht. simpl. now rewrite <- !app_assoc.
    + simpl. unfold ret.
      destruct (IH (results ++ [res]) st)
        as [(st' & -> & Ht) | (e & st' & done & r & -> & Ht)].
      * left. exists st'. rewrite <- app_assoc. split; [reflexivity|].
        now rewrite Ht.
      * right. exists e, st', done, r. now split.
Qed.

Lemma bind_inr {A B} (c : M World Resource A) (k : A -> M World Resource B)
    st a st' :
  c st = (inr a, st') -> bind c k st = k a st'.
Proof. unfold bind. now intros ->. Qed.

Lemma bind_inl {A B} (c : M World Resource A) (k : A -> M World Resource B)
    st e st' :
  c st = (inl e, st') -> bind c k st = (inl e, st').
Proof. unfold bind. now intros ->. Qed.

Lemma call_eq {A} (ev : Error + A -> Event Resource) f st r w :
  f (world st) = (r, w) ->
  call ev f st
  = (r, {| clients := clients st; world := w; trace := trace st ++ [ev r] |}).
Proof. unfold call. now intros ->. Qed.

Lemma with_clients_eq {A} (f : Clients -> (Error + A) * Clients) st r c :
  f (clients st) = (r, c) ->
  with_clients f st
  = (r, {| clients := c; world := world st; trace := trace st |}).
Proof. unfold with_clients. now intros ->. Qed.

(** The loop over the permissions ends in one of three ways: it went
    through; [simulateRule] failed for a permission; the callback threw on
    a result. *)
Lemma simulate_each_run arn region cb permissions :
  forall results st,
    (exists st' returned,
        simulate_each simulateRule arn region cb permissions results st
        = (inr (results ++ concat returned), st')
        /\ length returned = length permissions
        /\ trace st' = trace st ++ expected_events arn region cb permissions returned)
    \/ (exists e st' before per after returned,
        simulate_each simulateRule arn region cb permissions results st = (inl e, st')
        /\ permissions = before ++ per :: after
        /\ length returned = length before
        /\ trace st'
           = trace st ++ expected_events arn region cb before returned
             ++ [CallSimulateRule (rule_input arn region per) (inl e)])
    \/ (exists e st' before per result done res returned,
        simulate_each simulateRule arn region cb permissions results st = (inl e, st')
        /\ trace st'
           = trace st ++ expected_events arn region cb before returned
             ++ CallSimulateRule (rule_input arn region per) (inr result)
                :: callback_events cb done ++ [CallOnSimulation res]).
Proof.
  induction permissions as [|per permissions IH]; intros results st.
  - left. exists st, []. simpl. unfold ret. now rewrite !app_nil_r.
  - simpl.
    destruct (simulateRule (rule_input arn region per) (world st))
      as [[e|result] w] eqn:Erule.
    + right. left. eexists e, _, [], per, permissions, [].
      split; [eapply bind_inl, call_eq, Erule|].
      now repeat split.
    + erewrite bind_inr by (eapply call_eq, Erule).
      set (st1 := {| clients := clients st; world := w;
                     trace := trace st
                              ++ [CallSimulateRule (rule_input arn region per)
                                    (inr result)] |}).
      destruct (push_results_run cb result results st1)
        as [(st2 & Hpush & Ht2) | (e & st2 & done & res & Hpush & Ht2)].
      * rewrite (bind_inr _ _ _ _ _ Hpush).
        destruct (IH (results ++ result) st2)
          as [(st' & returned & -> & Hlen & Ht)
             | [(e & st' & before & p & after & returned & -> & -> & Hlen & Ht)
               | (e & st' & before & p & r & done & res & returned & -> & Ht)]].
        -- left. exists st', (result :: returned). simpl.
           rewrite app_assoc. split; [reflexivity|]. split; [now rewrite Hlen|].
           rewrite Ht, Ht2, expected_events_cons. simpl.
           now rewrite <- !app_assoc.
        -- right. left.
           exists e, st', (per :: before), p, after, (result :: returned).
           split; [reflexivity|]. split; [reflexivity|].
           split; [simpl; now rewrite Hlen|].
           rewrite Ht, Ht2, expected_events_cons. simpl.
           now rewrite <- !app_assoc.
        -- right. right.
           exists e, st', (per :: before), p, r, done, res, (result :: returned).
           split; [reflexivity|].
           rewrite Ht, Ht2, expected_events_cons. simpl.
           now rewrite <- !app_assoc.
      * rewrite (bind_inl _ _ _ _ _ Hpush).
        right. right. exists e, st2, [], per, result, done, res, [].
        split; [reflexivity|]. rewrite Ht2. simpl. now rewrite <- !app_assoc.
Qed.

(** With collaborators that return normally the loop goes through. *)
Lemma simulate_each_returns arn region cb permissions :
  (forall input w, exists result w', simulateRule input w = (inr result, w')) ->
  (forall f, cb = Some f -> forall res w, exists w', f res w = (inr tt, w')) ->
  forall results st,
  exists out st',
    simulate_each simulateRule arn region cb permissions results st = (inr out, st').
Proof.
  intros Hrule Hcb.
  assert (Hpush : forall result results st,
             exists out st', push_results cb result results st = (inr out, st')).
  { induction result as [|res result IH]; intros results st; [simpl; eauto|].
    simpl. destruct cb as [f|]; simpl.
    - destruct (Hcb f eq_refl res (world st)) as [w' Hf].
      erewrite bind_inr by (eapply call_eq, Hf). apply IH.
    - erewrite bind_inr by reflexivity. apply IH. }
  induction permissions as [|per permissions IH]; intros results st; [simpl; eauto|].
  simpl.
  destruct (Hrule (rule_input arn region per) (world st)) as (result & w' & Hr).
  erewrite bind_inr by (eapply call_eq, Hr).
  destruct (Hpush result results
              {| clients := clients st; world := w';
                 trace := trace st
                          ++ [CallSimulateRule (rule_input arn region per)
                                (inr result)] |})
    as (out & st' & Hp).
  rewrite (bind_inr _ _ _ _ _ Hp). apply IH.
Qed.

(** The whole function: it fails before the identity is fetched, or
    between the fetch and the loop, or it runs the loop. *)
Lemma simulatePermissions_run env options st :
  let run :=
    simulatePermissions sha256_base64 checkCredentials requiredPermissions
      simulateRule send env options st in
  (exists e, fst run = inl e /\ trace (snd run) = trace st)
  \/ (exists e client,
        fst run = inl e /\ trace (snd run) = trace st ++ [CallSend client])
  \/ (exists client callerArn arn st1,
        fst (send client (world st)) = inr (Some {| Arn := Some callerArn |})
        /\ normalizeArn callerArn = inr arn
        /\ trace st1 = trace st ++ [CallSend client]
        /\ run
           = match simulate_each simulateRule arn (region options)
                     (onSimulation options) requiredPermissions [] st1 with
             | (inr results, st') => (inr {| results := results |}, st')
             | (inl e, st') => (inl e, st')
             end).
Proof.
  cbv zeta. unfold simulatePermissions.
  destruct (getStsClient sha256_base64 checkCredentials env (region options)
              (clients st)) as [[e|client] c] eqn:Eclient.
  { left. exists e.
    rewrite (bind_inl _ _ _ _ _ (with_clients_eq _ _ _ _ Eclient)). now split. }
  rewrite (bind_inr _ _ _ _ _ (with_clients_eq _ _ _ _ Eclient)).
  set (st0 := {| clients := c; world := world st; trace := trace st |}).
  destruct (send client (world st)) as [[e|[[identityArn]|]] w] eqn:Esend.
  { right. left. exists e, client.
    rewrite (bind_inl _ _ _ _ _ (call_eq _ (send client) st0 _ _ Esend)).
    now split. }
  2: { right. left. exists NoIdentity, client.
       rewrite (bind_inr _ _ _ _ _ (call_eq _ (send client) st0 _ _ Esend)).
       now split. }
  rewrite (bind_inr _ _ _ _ _ (call_eq _ (send client) st0 _ _ Esend)).
  cbn [Arn]. destruct (if_truthy identityArn) as [callerArn|] eqn:Etruthy.
  2: { right. left. now exists NoIdentity, client. }
  apply if_truthy_Some in Etruthy as [-> _].
  destruct (normalizeArn callerArn) as [e|arn] eqn:Enorm.
  { right. left. now exists e, client. }
  right. right.
  exists client, callerArn, arn,
    {| clients := c; world := w; trace := trace st ++ [CallSend client] |}.
  split; [now rewrite Esend|]. split; [exact Enorm|]. split; [reflexivity|].
  unfold bind, ret.
  now destruct (simulate_each _ _ _ _ _ _ _) as [[e|out] st'].
Qed.

(** C3.  Results are aggregated in strict encounter order, and the
    callback hears of them in that order.  When [simulatePermissions]
    returns, its results are the lists that [simulateRule] returned for the
    required permissions, in the order of the permissions and, within one
    permission, in the order returned; and what the run did after fetching
    the identity is, for each permission in turn, the call of
    [simulateRule] followed by one callback call for each of its results in
    order (no callback call when none was supplied), so every callback call
    comes before the call for the next permission and before the return.
    And the function does return when the credential check passes, the
    identity normalises, [simulateRule] returns and the callback does not
    throw. *)
Theorem simulatePermissions_ordered env options st :
  let run :=
    simulatePermissions sha256_base64 checkCredentials requiredPermissions
      simulateRule send env options st in
  (forall out,
      fst run = inr out ->
      exists client arn returned,
        length returned = length requiredPermissions
        /\ results out = concat returned
        /\ trace (snd run)
           = trace st
             ++ CallSend client
                :: expected_events arn (region options) (onSimulation options)
                     requiredPermissions returned)
  /\ (checkCredentials env = None ->
      (forall client w,
          exists callerArn arn w',
            send client w = (inr (Some {| Arn := Some callerArn |}), w')
            /\ callerArn <> "" /\ normalizeArn callerArn = inr arn) ->
      (forall input w, exists result w', simulateRule input w = (inr result, w')) ->
      (forall f, onSimulation options = Some f ->
                 forall res w, exists w', f res w = (inr tt, w')) ->
      exists out, fst run = inr out).
Proof.
  cbv zeta. split.
  - intros out Hout.
    destruct (simulatePermissions_run env options st)
      as [(e & He & _) | [(e & client & He & _)
                         | (client & callerArn & arn & st1 & _ & _ & Ht1 & Hrun)]];
      [congruence.. |].
    rewrite Hrun in Hout |- *. clear Hrun.
    destruct (simulate_each_run arn (region options) (onSimulation options)
                requiredPermissions [] st1)
      as [(st' & returned & E & Hlen & Ht)
         | [(e & st' & before & per & after & returned & E & _)
           | (e & st' & before & per & result & done & res & returned & E & _)]];
      rewrite E in Hout |- *; simpl in Hout; try discriminate.
    injection Hout as <-. exists client, arn, returned. simpl.
    split; [exact Hlen|]. split; [reflexivity|].
    rewrite Ht, Ht1. now rewrite <- app_assoc.
  - intros Hcheck Hsend Hrule Hcb. unfold simulatePermissions.
    destruct (getServiceClient_returns sha256_base64 checkCredentials env
                {| in_region := region options; in_service := sts;
                   in_customCredentials := None |} (clients st) Hcheck)
      as [client Hclient].
    destruct (getStsClient sha256_base64 checkCredentials env (region options)
                (clients st)) as [r c] eqn:Eclient.
    unfold getStsClient in Eclient. rewrite Eclient in Hclient.
    simpl in Hclient. subst r.
    rewrite (bind_inr _ _ _ _ _ (with_clients_eq _ _ _ _ Eclient)).
    set (st0 := {| clients := c; world := world st; trace := trace st |}).
    destruct (Hsend client (world st0)) as (callerArn & arn & w' & Es & Hne & Hn).
    rewrite (bind_inr _ _ _ _ _ (call_eq _ (send client) st0 _ _ Es)).
    cbn [Arn]. rewrite (if_truthy_nonempty _ Hne), Hn.
    set (st1 := {| clients := clients st0; world := w';
                   trace := trace st0 ++ [CallSend client] |}).
    destruct (simulate_each_returns arn (region options) (onSimulation options)
                requiredPermissions Hrule Hcb [] st1) as (out & st' & E).
    rewrite (bind_inr _ _ _ _ _ E). unfold ret. simpl. eauto.
Qed.

(** C4.  No partial failure is tolerated.  If, in a run, a call of
    [simulateRule] failed with [e], then the whole call fails with [e] (it
    returns no results), and the failed call is the last thing the run did:
    before it come only the identity fetch and the complete rounds of the
    permissions before the failing one, so [simulateRule] is never called
    for a later permission. *)
Theorem simulatePermissions_aborts env options st input e events :
  let run :=
    simulatePermissions sha256_base64 checkCredentials requiredPermissions
      simulateRule send env options st in
  trace (snd run) = trace st ++ events ->
  In (CallSimulateRule input (inl e)) events ->
  fst run = inl e
  /\ exists client arn before per after returned,
       requiredPermissions = before ++ per :: after
       /\ length returned = length before
       /\ input = rule_input arn (region options) per
       /\ events
          = CallSend client
            :: expected_events arn (region options) (onSimulation options)
                 before returned
            ++ [CallSimulateRule input (inl e)].
Proof.
  cbv zeta. intros Hevents Hin.
  destruct (simulatePermissions_run env options st)
    as [(e' & _ & Ht) | [(e' & client & _ & Ht)
                        | (client & callerArn & arn & st1 & _ & _ & Ht1 & Hrun)]].
  - rewrite Ht, <- (app_nil_r (trace st)) in Hevents at 1.
    apply app_inv_head in Hevents as <-. destruct Hin.
  - rewrite Ht in Hevents. apply app_inv_head in Hevents as <-.
    destruct Hin as [|[]]; discriminate.
  - rewrite Hrun in Hevents |- *. clear Hrun.
    destruct (simulate_each_run arn (region options) (onSimulation options)
                requiredPermissions [] st1)
      as [(st' & returned & E & Hlen & Ht)
         | [(e' & st' & before & per & after & returned & E & Hperm & Hlen & Ht)
           | (e' & st' & before & per & result & done & res & returned & E & Ht)]];
      rewrite E in Hevents |- *; simpl in Hevents |- *;
      rewrite Ht, Ht1, <- app_assoc in Hevents;
      apply app_inv_head in Hevents as <-; simpl in Hin;
      destruct Hin as [Hin | Hin]; try discriminate.
    + now apply expected_events_no_failure in Hin.
    + apply in_app_iff in Hin as [Hin | [Hin | []]];
        [now apply expected_events_no_failure in Hin|].
      injection Hin as <- <-. split; [reflexivity|].
      now exists client, arn, before, per, after, returned.
    + apply in_app_iff in Hin as [Hin | [Hin | Hin]];
        [now apply expected_events_no_failure in Hin | discriminate |].
      apply in_app_iff in Hin as [Hin | [Hin | []]];
        [now apply callback_events_no_failure in Hin | discriminate].
Qed.

(** Every call of [simulateRule] in the loop is made for the principal
    that the loop was given. *)
Lemma expected_events_principal principal region cb permissions returned
    (input : SimulateRuleInput Resource) outcome :
  In (CallSimulateRule input outcome)
     (expected_events principal region cb permissions returned) ->
  arn input = principal.
Proof.
  revert returned.
  induction permissions as [|per permissions IH]; intros [|result returned];
    try (now intros []).
  rewrite expected_events_cons. simpl. rewrite in_app_iff.
  intros [[= <- _] | [H | H]]; [reflexivity | | now apply IH in H].
  destruct cb; simpl in H; [|destruct H].
  apply in_map_iff in H as (res & H & _). discriminate.
Qed.

Lemma simulate_each_extends principal region cb permissions results st :
  exists events,
    trace (snd (simulate_each simulateRule principal region cb permissions results st))
    = trace st ++ events.
Proof.
  destruct (simulate_each_run principal region cb permissions results st)
    as [(st' & returned & -> & _ & Ht)
       | [(e & st' & before & per & after & returned & -> & _ & _ & Ht)
         | (e & st' & before & per & result & done & res & returned & -> & Ht)]];
    simpl; rewrite Ht; eauto.
Qed.

Lemma simulate_each_principal principal region cb permissions results st
    (input : SimulateRuleInput Resource) outcome events :
  trace (snd (simulate_each simulateRule principal region cb permissions results st))
  = trace st ++ events ->
  In (CallSimulateRule input outcome) events ->
  arn input = principal.
Proof.
  intros Hevents Hin.
  destruct (simulate_each_run principal region cb permissions results st)
    as [(st' & returned & E & _ & Ht)
       | [(e & st' & before & per & after & returned & E & _ & _ & Ht)
         | (e & st' & before & per & result & done & res & returned & E & Ht)]];
    rewrite E in Hevents; simpl in Hevents; rewrite Ht in Hevents;
    apply app_inv_head in Hevents as <-.
  - now apply expected_events_principal in Hin.
  - apply in_app_iff in Hin as [Hin | [[= <- _] | []]];
      [now apply expected_events_principal in Hin | reflexivity].
  - apply in_app_iff in Hin as [Hin | [[= <- _] | Hin]];
      [now apply expected_events_principal in Hin | reflexivity |].
    apply in_app_iff in Hin as [Hin | [Hin | []]]; [|discriminate].
    destruct cb; simpl in Hin; [|destruct Hin].
    apply in_map_iff in Hin as (r & Hin & _). discriminate.
Qed.

(** C10, amended.  The pattern is not anchored, so text around a match
    never makes the match step fail: if the pattern matches in [s], it
    matches in [pre ++ s ++ suf].  When the leftmost match captures the
    service iam and the resource type user, the entire input, with the text
    around the match, is the principal ARN, and it is the ARN of every
    [simulateRule] call of a run whose identity fetch reported that input.
    (An input whose leftmost match captures another pair goes through the
    same checks as any other input.) *)
Theorem arn_match_unanchored :
  (forall pre s suf,
      is_Some (arn_match s) -> is_Some (arn_match (pre +:+ s +:+ suf)))
  /\ (forall s m,
      arn_match s = Some m -> arn_1 m = "iam" -> arn_3 m = "user" ->
      normalizeArn s = inr s)
  /\ (forall s m env options st events input outcome,
      arn_match s = Some m -> arn_1 m = "iam" -> arn_3 m = "user" ->
      (forall client w, fst (send client w) = inr (Some {| Arn := Some s |})) ->
      trace (snd (simulatePermissions sha256_base64 checkCredentials
                    requiredPermissions simulateRule send env options st))
      = trace st ++ events ->
      In (CallSimulateRule input outcome) events ->
      arn input = s).
Proof.
  split; [exact arn_match_surrounded|].
  split; [exact normalizeArn_iam_user_whole|].
  intros s m env options st events input outcome Hm H1 H3 Hsend Hevents Hin.
  destruct (simulatePermissions_run env options st)
    as [(e & _ & Ht) | [(e & client & _ & Ht)
                       | (client & callerArn & principal & st1
                          & Hsent & Hnorm & Ht1 & Hrun)]].
  - rewrite Ht, <- (app_nil_r (trace st)) in Hevents at 1.
    apply app_inv_head in Hevents as <-. destruct Hin.
  - rewrite Ht in Hevents. apply app_inv_head in Hevents as <-.
    destruct Hin as [|[]]; discriminate.
  - rewrite Hsend in Hsent. injection Hsent as <-.
    rewrite (normalizeArn_iam_user_whole s m Hm H1 H3) in Hnorm.
    injection Hnorm as <-.
    assert (Hloop :
              trace (snd (simulate_each simulateRule s (region options)
                            (onSimulation options) requiredPermissions [] st1))
              = trace st ++ events).
    { rewrite <- Hevents, Hrun.
      now destruct (simulate_each _ _ _ _ _ _ _) as [[e|out] st']. }
    destruct (simulate_each_extends s (region options) (onSimulation options)
                requiredPermissions [] st1) as [loop_events Hext].
    rewrite Hext, Ht1, <- app_assoc in Hloop.
    apply app_inv_head in Hloop as <-.
    destruct Hin as [Hin | Hin]; [discriminate|].
    eapply simulate_each_principal; eassumption.
Qed.
End SimulationFacts.

Lemma simulatePermissions_ordered_witness :
  let run :=
    simulatePermissions (fun text => text) (fun _ => None) [P1; P2]
      example_simulateRule example_send example_env example_options
      example_start in
  let out :=
    {| results := [allowed "iam:SimulatePrincipalPolicy"; allowed "iam:PassRole";
                   allowed "lambda:GetFunction"] |} in
  fst run = inr out
  /\ world (snd run) = results out
  /\ exists client arn returned,
       length returned = 2
       /\ results out = concat returned
       /\ trace (snd run)
          = [] ++ CallSend client
                  :: expected_events arn "eu-central-1" (Some example_callback)
                       [P1; P2] returned.
Proof.
  intros run out.
  assert (Hrun : fst run = inr out) by (vm_compute; reflexivity).
  split; [exact Hrun|]. split; [vm_compute; reflexivity|].
  exact (proj1 (simulatePermissions_ordered (fun text => text) (fun _ => None)
                  _ _ [P1; P2] example_simulateRule example_send
                  example_env example_options example_start) out Hrun).
Defined.

Lemma simulatePermissions_aborts_witness :
  let run :=
    simulatePermissions (fun text => text) (fun _ => None) [P1; P2; P3]
      failing_simulateRule example_send example_env example_options
      example_start in
  let input :=
    rule_input "arn:aws:iam::123456789012:role/MyRole" "eu-central-1" P2 in
  let events :=
    [CallSend {| client_id := 0; client_class := sts;
                 client_config :=
                   {| cfg_region := "eu-central-1";
                      cfg_credentials := Some (KeyPair "AKIATOOL" "secret");
                      cfg_endpoint := None |} |};
     CallSimulateRule
       (rule_input "arn:aws:iam::123456789012:role/MyRole" "eu-central-1" P1)
       (inr [allowed "iam:SimulatePrincipalPolicy"; allowed "iam:PassRole"]);
     CallOnSimulation (allowed "iam:SimulatePrincipalPolicy");
     CallOnSimulation (allowed "iam:PassRole");
     CallSimulateRule input (inl (MkError "AccessDenied"))] in
  trace (snd run) = events
  /\ fst run = inl (MkError "AccessDenied")
  /\ exists client arn before per after returned,
       [P1; P2; P3] = before ++ per :: after
       /\ length returned = length before
       /\ input = rule_input arn "eu-central-1" per
       /\ events
          = CallSend client
            :: expected_events arn "eu-central-1" (Some example_callback)
                 before returned
            ++ [CallSimulateRule input (inl (MkError "AccessDenied"))].
Proof.
  intros run input events.
  assert (Htrace : trace (snd run) = trace example_start ++ events)
    by (vm_compute; reflexivity).
  split; [exact Htrace|].
  apply (simulatePermissions_aborts (fun text => text) (fun _ => None)
           _ _ [P1; P2; P3] failing_simulateRule example_send
           example_env example_options example_start input
           (MkError "AccessDenied") events Htrace).
  simpl. auto 10.
Defined.

Lemma arn_match_unanchored_witness :
  let run :=
    simulatePermissions (fun text => text) (fun _ => None) [P1]
      example_simulateRule example_send_user example_env example_options
      example_start in
  (exists m, arn_match surrounded_arn = Some m
             /\ arn_0 m = "arn:aws:iam::123456789012:user/alice"
             /\ arn_1 m = "iam" /\ arn_3 m = "user")
  /\ is_Some (arn_match ("caller: " +:+ "arn:aws:iam::123456789012:user/alice"
                         +:+ String "010" "(second line)"))
  /\ normalizeArn surrounded_arn = inr surrounded_arn
  /\ In (CallSimulateRule (rule_input surrounded_arn "eu-central-1" P1)
           (inr [allowed "iam:SimulatePrincipalPolicy"; allowed "iam:PassRole"]))
        (trace (snd run))
  /\ forall input outcome,
       In (CallSimulateRule input outcome) (trace (snd run)) ->
       arn input = surrounded_arn.
Proof.
  intros run.
  pose proof (arn_match_unanchored (fun text => text) (fun _ => None)
                _ _ [P1] example_simulateRule example_send_user)
    as (Hsurrounded & Hwhole & Hpassed).
  split; [|split; [|split; [|split]]].
  - eexists. split; [reflexivity|]. repeat split.
  - apply Hsurrounded. eexists. reflexivity.
  - eapply Hwhole; reflexivity.
  - vm_compute. auto.
  - intros input outcome Hin.
    eapply (Hpassed surrounded_arn _ example_env example_options example_start
              (trace (snd run)) input outcome);
      [reflexivity | reflexivity | reflexivity | reflexivity | reflexivity | exact Hin].
Defined.

(* ===================================================================== *)
(** * Part III: more properties of the code                              *)
(* ===================================================================== *)

(** ** The groups of a match *)

(** A match of the ARN pattern, with what the last group holds. *)
Lemma arn_pattern_groups s m :
  arn_pattern s = Some m ->
  exists tail,
    s = arn_of (arn_1 m) (arn_2 m) (arn_3 m) (arn_4 m +:+ tail)
    /\ run_of is_word (arn_1 m) /\ run_of is_digit (arn_2 m)
    /\ run_of not_slash (arn_3 m) /\ all_chars is_dot (arn_4 m) = true.
Proof.
  unfold arn_pattern. intros H.
  apply lit_Some in H as (s1 & -> & H).
  apply plus_Some in H as (g1 & s2 & -> & Hg1 & Hg1' & H).
  apply lit_Some in H as (s3 & -> & H).
  apply plus_Some in H as (g2 & s4 & -> & Hg2 & Hg2' & H).
  apply lit_Some in H as (s5 & -> & H).
  apply plus_Some in H as (g3 & s6 & -> & Hg3 & Hg3' & H).
  apply star_Some in H as (g4 & s7 & -> & Hg4 & [= <-]).
  exists s7. simpl. unfold arn_of, run_of. auto 10.
Qed.

(** ** What the credential resolver returns *)

(** Whatever [getCredentials] returns comes from outside Lambda.  A
    provider is for the non-empty profile variable.  A key pair has two
    non-empty components, no profile is active, and both components come
    from the same pair of variables: the tool-specific pair, or the generic
    pair when the tool-specific pair is not complete.  The two families are
    never mixed. *)
Theorem getCredentials_source env c :
  getCredentials env = Some c ->
  insideLambda env = false
  /\ match c with
     | FromIni profile =>
         REMOTION_AWS_PROFILE env = Some profile /\ profile <> ""
     | KeyPair a s =>
         a <> "" /\ s <> ""
         /\ if_truthy (REMOTION_AWS_PROFILE env) = None
         /\ ((REMOTION_AWS_ACCESS_KEY_ID env = Some a
              /\ REMOTION_AWS_SECRET_ACCESS_KEY env = Some s)
             \/ ((if_truthy (REMOTION_AWS_ACCESS_KEY_ID env) = None
                  \/ if_truthy (REMOTION_AWS_SECRET_ACCESS_KEY env) = None)
                 /\ AWS_ACCESS_KEY_ID env = Some a
                 /\ AWS_SECRET_ACCESS_KEY env = Some s))
     end.
Proof.
  unfold getCredentials.
  destruct (insideLambda env); [discriminate|].
  destruct (if_truthy (REMOTION_AWS_PROFILE env)) as [profile|] eqn:Ep.
  { intros [= <-]. split; [reflexivity|]. now apply if_truthy_Some. }
  destruct (if_truthy (REMOTION_AWS_ACCESS_KEY_ID env)) as [ta|] eqn:Eta,
    (if_truthy (REMOTION_AWS_SECRET_ACCESS_KEY env)) as [ts|] eqn:Ets.
  { intros [= <-]. apply if_truthy_Some in Eta as [? ?], Ets as [? ?]. tauto. }
  all: destruct (if_truthy (AWS_ACCESS_KEY_ID env)) as [ga|] eqn:Ega,
         (if_truthy (AWS_SECRET_ACCESS_KEY env)) as [gs|] eqn:Egs;
         try discriminate.
  all: intros [= <-]; apply if_truthy_Some in Ega as [? ?], Egs as [? ?]; tauto.
Qed.

Lemma getCredentials_source_witness :
  let env := {| insideLambda := false;
                REMOTION_AWS_PROFILE := None;
                REMOTION_AWS_ACCESS_KEY_ID := Some "AKIATOOL";
                REMOTION_AWS_SECRET_ACCESS_KEY := None;
                AWS_ACCESS_KEY_ID := Some "AKIAEXAMPLE";
                AWS_SECRET_ACCESS_KEY := Some "secret" |} in
  getCredentials env = Some (KeyPair "AKIAEXAMPLE" "secret")
  /\ "AKIAEXAMPLE" <> "" /\ "secret" <> "".
Proof.
  intros env.
  assert (H : getCredentials env = Some (KeyPair "AKIAEXAMPLE" "secret"))
    by reflexivity.
  split; [exact H|].
  destruct (getCredentials_source env _ H) as (_ & Ha & Hs & _). now split.
Defined.

(** ** What the cache key tells apart *)



Section FingerprintEquality.
Variable sha256_base64 : string -> string.
Hypothesis sha256_base64_inj :
  forall a b, sha256_base64 a = sha256_base64 b -> a = b.

End FingerprintEquality.


(** ** More about the client cache *)

Section CacheMore.
Variable sha256_base64 : string -> string.
Variable checkCredentials : ProcessEnv -> option Error.

Local Abbreviation getServiceClient :=
  (getServiceClient sha256_base64 checkCredentials).
Local Abbreviation after_calls := (after_calls sha256_base64 checkCredentials).
Local Abbreviation reachable := (reachable sha256_base64 checkCredentials).
Local Abbreviation key_of := (key_of sha256_base64).
Local Abbreviation built_for_key := (built_for_key sha256_base64).

Lemma getServiceClient_built_for env input st :
  built_for_key env st -> built_for_key env (snd (getServiceClient env input st)).
Proof.
  intros Hst.
  destruct (getServiceClient_cases sha256_base64 checkCredentials env input st)
    as [(c & _ & ->) | [(e & _ & _ & ->) | (_ & _ & ->)]]; simpl; try assumption.
  intros key client. simpl. rewrite lookup_insert.
  case_decide as Hk; [|apply Hst].
  intros [= <-]. exists input. now subst key.
Qed.

Lemma after_calls_built_for env calls st :
  built_for_key env st -> built_for_key env (after_calls env calls st).
Proof.
  revert st. induction calls as [|input calls IH]; intros st H; [assumption|].
  simpl. apply IH. now apply getServiceClient_built_for.
Qed.

Lemma no_clients_built_for env : built_for_key env no_clients.
Proof. intros key client. unfold no_clients. simpl. now rewrite lookup_empty. Qed.

Lemma reachable_size st : reachable st -> size (_clients st) = next_id st.
Proof.
  induction 1 as [|env input st _ IH].
  - unfold no_clients. simpl. apply map_size_empty.
  - destruct (getServiceClient_cases sha256_base64 checkCredentials env input st)
      as [(c & _ & ->) | [(e & _ & _ & ->) | (Hmiss & _ & ->)]]; simpl;
      try assumption.
    rewrite map_size_insert_None by assumption. now rewrite IH.
Qed.

Lemma getServiceClient_next_id env input st :
  next_id st <= next_id (snd (getServiceClient env input st)) <= S (next_id st).
Proof.
  destruct (getServiceClient_cases sha256_base64 checkCredentials env input st)
    as [(c & _ & ->) | [(e & _ & _ & ->) | (_ & _ & ->)]]; simpl; lia.
Qed.

Lemma after_calls_next_id env calls st :
  next_id st <= next_id (after_calls env calls st) <= next_id st + length calls.
Proof.
  revert st. induction calls as [|input calls IH]; intros st; simpl; [lia|].
  pose proof (getServiceClient_next_id env input st).
  pose proof (IH (snd (getServiceClient env input st))). lia.
Qed.

(** The cache only grows.  In a reachable state the number of stored
    clients is the number of clients ever constructed; whatever calls
    follow, every stored client stays where it is, and each call constructs
    at most one more. *)
Theorem cache_only_grows st :
  reachable st ->
  size (_clients st) = next_id st
  /\ forall env calls,
       (forall key client,
           _clients st !! key = Some client ->
           _clients (after_calls env calls st) !! key = Some client)
       /\ size (_clients st) <= size (_clients (after_calls env calls st))
          <= size (_clients st) + length calls.
Proof.
  intros Hst. split; [now apply reachable_size|].
  intros env calls. split.
  - intros key client. apply after_calls_keeps.
  - rewrite !reachable_size by (try apply after_calls_reachable; assumption).
    apply after_calls_next_id.
Qed.

(** A failed construction is not remembered.  When a call misses the cache
    and the credential check throws, the call throws that error and leaves
    the cache and the identities untouched. *)
Lemma getServiceClient_check_fails env input st e :
  _clients st !! key_of env input = None ->
  checkCredentials env = Some e ->
  getServiceClient env input st = (inl e, st).
Proof.
  intros Hmiss Hcheck.
  destruct (getServiceClient_cases sha256_base64 checkCredentials env input st)
    as [(c & Hc & _) | [(e' & _ & He & ->) | (_ & He & _)]]; congruence.
Qed.

Section CollisionFreeMore.
Hypothesis sha256_base64_inj :
  forall a b, sha256_base64 a = sha256_base64 b -> a = b.

Lemma key_of_inj env input1 input2 :
  key_of env input1 = key_of env input2 -> input1 = input2.
Proof.
  unfold key_of.
  intros H%(getCredentialsHash_descriptor _ sha256_base64_inj)%descriptor_inj.
  destruct input1, input2, H as (H1 & H2 & H3). simpl in *. now subst.
Qed.

Lemma getServiceClient_built_for_input env st input client :
  built_for_key env st ->
  fst (getServiceClient env input st) = inr client ->
  client_class client = in_service input
  /\ client_config client
     = client_config_for env (in_region input) (in_customCredentials input).
Proof.
  intros Hst.
  destruct (getServiceClient_cases sha256_base64 checkCredentials env input st)
    as [(c & Hc & ->) | [(e & _ & _ & ->) | (_ & _ & ->)]]; simpl;
    [| discriminate | now intros [= <-]].
  intros [= <-]. apply Hst in Hc as (input' & Hkey & Hclass & Hconfig).
  apply key_of_inj in Hkey as <-. now split.
Qed.

(** The cast at the end of [getServiceClient] is sound.  In a process that
    started with an empty cache and whose credential environment does not
    change, a call never hands back a client made for another service or
    with another configuration: the client has the class of the service
    asked for and the configuration the call would build. *)
Theorem getServiceClient_returns_requested env calls input client :
  fst (getServiceClient env input (after_calls env calls no_clients)) = inr client ->
  client_class client = in_service input
  /\ client_config client
     = client_config_for env (in_region input) (in_customCredentials input).
Proof.
  apply getServiceClient_built_for_input.
  apply after_calls_built_for, no_clients_built_for.
Qed.

(** Different arguments, different objects: two calls that differ in the
    region, the service or the custom credentials never return the same
    client object. *)
Theorem getServiceClient_one_object_per_input env input1 input2 st
    client1 client2 calls :
  reachable st ->
  input1 <> input2 ->
  fst (getServiceClient env input1 st) = inr client1 ->
  fst (getServiceClient env input2
         (after_calls env calls (snd (getServiceClient env input1 st))))
  = inr client2 ->
  client_id client1 <> client_id client2.
Proof.
  intros Hst Hne. apply getServiceClient_distinct; [exact Hst|].
  intros H. now apply key_of_inj in H.
Qed.

(** With custom credentials the requested region is part of the key but
    not of the client: two calls with the same custom credentials and
    different regions build two objects of one and the same configuration,
    both for ['us-east-1']. *)
Theorem custom_credentials_region_only_in_key env calls service cc
    region1 region2 client1 client2 :
  let st := after_calls env calls no_clients in
  let input region :=
    {| in_region := region; in_service := service;
       in_customCredentials := Some cc |} in
  region1 <> region2 ->
  fst (getServiceClient env (input region1) st) = inr client1 ->
  fst (getServiceClient env (input region2)
         (snd (getServiceClient env (input region1) st))) = inr client2 ->
  client_id client1 <> client_id client2
  /\ client_config client1 = client_config client2
  /\ cfg_region (client_config client1) = "us-east-1".
Proof.
  intros st input Hne H1 H2. split; [|split].
  - apply (getServiceClient_distinct sha256_base64 checkCredentials env
             (input region1) (input region2) st client1 client2 []);
      [apply after_calls_reachable; constructor | | exact H1 | exact H2].
    intros [= H]%key_of_inj. contradiction.
  - assert (Hst : built_for_key env st)
      by apply after_calls_built_for, no_clients_built_for.
    apply (getServiceClient_built_for_input _ _ _ _ Hst) in H1 as [_ ->].
    apply getServiceClient_built_for_input in H2 as [_ ->];
      [reflexivity | now apply getServiceClient_built_for].
  - apply getServiceClient_built_for_input in H1 as [_ ->]; [reflexivity|].
    apply after_calls_built_for, no_clients_built_for.
Qed.

(** The per-service getters hand back a client of their own service.
    Those without custom credentials build it for the requested region,
    with the resolved credentials and no endpoint; [getS3Client] with
    custom credentials builds it for ['us-east-1'] with the custom
    endpoint. *)
Theorem getters_return_their_service env calls region client :
  let st := after_calls env calls no_clients in
  let regional service :=
    client_class client = service
    /\ cfg_region (client_config client) = region
    /\ cfg_credentials (client_config client) = getCredentials env
    /\ cfg_endpoint (client_config client) = None in
  (fst (getCloudWatchLogsClient sha256_base64 checkCredentials env region st)
   = inr client -> regional cloudwatch)
  /\ (fst (getLambdaClient sha256_base64 checkCredentials env region st)
      = inr client -> regional lambda)
  /\ (fst (getIamClient sha256_base64 checkCredentials env region st)
      = inr client -> regional iam)
  /\ (fst (getStsClient sha256_base64 checkCredentials env region st)
      = inr client -> regional sts)
  /\ (fst (getServiceQuotasClient sha256_base64 checkCredentials env region st)
      = inr client -> regional servicequotas)
  /\ (fst (getS3Client sha256_base64 checkCredentials env region None st)
      = inr client -> regional s3)
  /\ (forall cc,
         fst (getS3Client sha256_base64 checkCredentials env region (Some cc) st)
         = inr client ->
         client_class client = s3
         /\ cfg_region (client_config client) = "us-east-1"
         /\ cfg_endpoint (client_config client) = Some (endpoint cc)).
Proof.
  intros st regional. unfold regional.
  assert (Hst : built_for_key env st)
    by apply after_calls_built_for, no_clients_built_for.
  repeat match goal with |- _ /\ _ => split end;
    try (intros H;
         apply (getServiceClient_built_for_input _ _ _ _ Hst) in H as [-> ->];
         now repeat split).
  intros cc H.
  apply (getServiceClient_built_for_input _ _ _ _ Hst) in H as [-> ->].
  now repeat split.
Qed.
End CollisionFreeMore.

End CacheMore.

(** Retrying after a failed credential check constructs the client as if
    the failed call had never been made: the failed call threw the error of
    the check, stored nothing and used up no identity, so once the check
    passes the same call builds the client with the identity that was next
    before the failure. *)
Theorem getServiceClient_retry (sha256_base64 : string -> string)
    (failing passing : ProcessEnv -> option Error) env input st e :
  _clients st !! key_of sha256_base64 env input = None ->
  failing env = Some e ->
  passing env = None ->
  getServiceClient sha256_base64 failing env input st = (inl e, st)
  /\ exists client,
       fst (getServiceClient sha256_base64 passing env input
              (snd (getServiceClient sha256_base64 failing env input st)))
       = inr client
       /\ client_id client = next_id st.
Proof.
  intros Hmiss Hfail Hpass.
  rewrite (getServiceClient_check_fails _ failing env input st e Hmiss Hfail).
  split; [reflexivity|]. simpl.
  destruct (getServiceClient_cases sha256_base64 passing env input st)
    as [(c & Hc & _) | [(e' & _ & He & _) | (_ & _ & ->)]]; [congruence..|].
  eexists. split; reflexivity.
Qed.

(** ** The choice of the client class *)

Lemma client_class_of_name class : client_class_of (service_name class) = inr class.
Proof. now destruct class. Qed.

Lemma client_class_of_inr service class :
  client_class_of service = inr class -> service = service_name class.
Proof.
  unfold client_class_of.
  repeat (match goal with
          | |- context [String.eqb service ?n] =>
              destruct (String.eqb_spec service n) as [-> | _]
          end; [now intros [= <-]|]).
  discriminate.
Qed.

(** The chain of comparisons picks a class exactly for the six keys of
    [ServiceMapping], each its own.  For any other string, the call throws
    the [TypeError] that names the string, before the cache is looked at;
    for a key of [ServiceMapping] it is the call of [getServiceClient] for
    that service. *)
Theorem client_class_of_exact :
  (forall service class,
      client_class_of service = inr class <-> service = service_name class)
  /\ (forall sha256_base64 checkCredentials env region service cc st,
      (forall class, service <> service_name class) ->
      getServiceClient_by_name sha256_base64 checkCredentials env region
        service cc st
      = (inl (MkTypeError ("unknown client " +:+ service)), st))
  /\ (forall sha256_base64 checkCredentials env region class cc st,
      let call :=
        getServiceClient sha256_base64 checkCredentials env
          {| in_region := region; in_service := class;
             in_customCredentials := cc |} st in
      getServiceClient_by_name sha256_base64 checkCredentials env region
        (service_name class) cc st
      = (inr (fst call), snd call)).
Proof.
  split; [|split].
  - intros service class. split; [apply client_class_of_inr|].
    intros ->. apply client_class_of_name.
  - intros sha256_base64 checkCredentials env region service cc st Hunknown.
    unfold getServiceClient_by_name.
    destruct (client_class_of service) as [e|class] eqn:E.
    + unfold client_class_of in E.
      repeat (match type of E with
              | context [String.eqb service ?n] =>
                  destruct (String.eqb_spec service n) as [-> | _]
              end; [discriminate E|]).
      now injection E as <-.
    + apply client_class_of_inr in E. now destruct (Hunknown class).
  - intros sha256_base64 checkCredentials env region class cc st call.
    unfold getServiceClient_by_name. rewrite client_class_of_name.
    fold call. now destruct call.
Qed.

Lemma client_class_of_exact_witness :
  getServiceClient_by_name (fun text => text) (fun _ => None) example_env
    "eu-central-1" "dynamodb" None no_clients
  = (inl (MkTypeError "unknown client dynamodb"), no_clients).
Proof.
  apply (proj1 (proj2 client_class_of_exact)).
  intros []; discriminate.
Defined.

Lemma cache_only_grows_witness :
  let call region :=
    {| in_region := region; in_service := s3; in_customCredentials := None |} in
  let st1 :=
    snd (getServiceClient (fun text => text) (fun _ => None) example_env
           (call "eu-central-1") no_clients) in
  let st3 :=
    after_calls (fun text => text) (fun _ => None) example_env
      [call "us-east-1"; call "eu-central-1"] st1 in
  size (_clients st1) = 1
  /\ size (_clients st1) <= size (_clients st3) <= size (_clients st1) + 2.
Proof.
  intros call st1 st3.
  destruct (cache_only_grows (fun text => text) (fun _ => None) st1)
    as [Hsize Hgrows]; [constructor; constructor|].
  split; [exact Hsize|].
  exact (proj2 (Hgrows example_env [call "us-east-1"; call "eu-central-1"])).
Defined.

Lemma getServiceClient_returns_requested_witness :
  let other :=
    {| in_region := "us-east-1"; in_service := lambda;
       in_customCredentials := None |} in
  let input :=
    {| in_region := "eu-central-1"; in_service := s3;
       in_customCredentials := None |} in
  exists client,
    fst (getServiceClient (fun text => text) (fun _ => None) example_env input
           (after_calls (fun text => text) (fun _ => None) example_env
              [other; input] no_clients))
    = inr client
    /\ client_class client = s3
    /\ cfg_region (client_config client) = "eu-central-1".
Proof.
  intros other input.
  destruct (getServiceClient_returns (fun text => text) (fun _ => None)
              example_env input
              (after_calls (fun text => text) (fun _ => None) example_env
                 [other; input] no_clients) eq_refl) as [client Hclient].
  exists client. split; [exact Hclient|].
  destruct (getServiceClient_returns_requested (fun text => text) (fun _ => None)
              (fun a b H => H) example_env [other; input] input client Hclient)
    as [-> ->].
  split; reflexivity.
Defined.

Lemma getServiceClient_one_object_per_input_witness :
  let s3_input :=
    {| in_region := "eu-central-1"; in_service := s3;
       in_customCredentials := None |} in
  let lambda_input :=
    {| in_region := "eu-central-1"; in_service := lambda;
       in_customCredentials := None |} in
  let get := getServiceClient (fun text => text) (fun _ => None) example_env in
  exists client1 client2,
    fst (get s3_input no_clients) = inr client1
    /\ fst (get lambda_input (snd (get s3_input no_clients))) = inr client2
    /\ client_id client1 <> client_id client2.
Proof.
  intros s3_input lambda_input get.
  destruct (getServiceClient_returns (fun text => text) (fun _ => None)
              example_env s3_input no_clients eq_refl) as [client1 H1].
  destruct (getServiceClient_returns (fun text => text) (fun _ => None)
              example_env lambda_input (snd (get s3_input no_clients)) eq_refl)
    as [client2 H2].
  exists client1, client2. split; [exact H1|]. split; [exact H2|].
  apply (getServiceClient_one_object_per_input (fun text => text) (fun _ => None)
           (fun a b H => H) example_env s3_input lambda_input no_clients
           client1 client2 []);
    [constructor | discriminate | exact H1 | exact H2].
Defined.

Lemma custom_credentials_region_only_in_key_witness :
  let cc := {| endpoint := "http://localhost:9000";
               accessKeyId := Some "minio";
               secretAccessKey := Some "secret";
               member_order := endpoint_accessKeyId_secretAccessKey |} in
  let input region :=
    {| in_region := region; in_service := s3; in_customCredentials := Some cc |} in
  let get := getServiceClient (fun text => text) (fun _ => None) example_env in
  exists client1 client2,
    fst (get (input "eu-central-1") no_clients) = inr client1
    /\ fst (get (input "ap-south-1") (snd (get (input "eu-central-1") no_clients)))
       = inr client2
    /\ client_id client1 <> client_id client2
    /\ client_config client1 = client_config client2.
Proof.
  intros cc input get.
  destruct (getServiceClient_returns (fun text => text) (fun _ => None)
              example_env (input "eu-central-1") no_clients eq_refl)
    as [client1 H1].
  destruct (getServiceClient_returns (fun text => text) (fun _ => None)
              example_env (input "ap-south-1")
              (snd (get (input "eu-central-1") no_clients)) eq_refl)
    as [client2 H2].
  exists client1, client2. split; [exact H1|]. split; [exact H2|].
  destruct (custom_credentials_region_only_in_key (fun text => text)
              (fun _ => None) (fun a b H => H) example_env [] s3 cc
              "eu-central-1" "ap-south-1" client1 client2)
    as (Hid & Hconfig & _); [discriminate | exact H1 | exact H2 |].
  now split.
Defined.

Lemma getters_return_their_service_witness :
  exists client,
    fst (getStsClient (fun text => text) (fun _ => None) example_env
           "eu-central-1" no_clients) = inr client
    /\ client_class client = sts
    /\ cfg_region (client_config client) = "eu-central-1"
    /\ cfg_credentials (client_config client)
       = Some (KeyPair "AKIATOOL" "secret")
    /\ cfg_endpoint (client_config client) = None.
Proof.
  destruct (getServiceClient_returns (fun text => text) (fun _ => None)
              example_env
              {| in_region := "eu-central-1"; in_service := sts;
                 in_customCredentials := None |} no_clients eq_refl)
    as [client Hclient].
  exists client. split; [exact Hclient|].
  exact (proj1 (proj2 (proj2 (proj2
           (getters_return_their_service (fun text => text) (fun _ => None)
              (fun a b H => H) example_env [] "eu-central-1" client))))
           Hclient).
Defined.

Lemma getServiceClient_retry_witness :
  let input :=
    {| in_region := "eu-central-1"; in_service := s3;
       in_customCredentials := None |} in
  getServiceClient (fun text => text) failing_checkCredentials example_env
    input no_clients
  = (inl (MkError "no credentials"), no_clients)
  /\ exists client,
       fst (getServiceClient (fun text => text) (fun _ => None) example_env input
              (snd (getServiceClient (fun text => text) failing_checkCredentials
                      example_env input no_clients)))
       = inr client
       /\ client_id client = 0.
Proof.
  intros input.
  apply (getServiceClient_retry (fun text => text) failing_checkCredentials
           (fun _ => None) example_env input no_clients
           (MkError "no credentials"));
    [apply lookup_empty | reflexivity | reflexivity].
Defined.

(** ** More about the permission simulation *)

Section SimulationMore.
Variable sha256_base64 : string -> string.
Variable checkCredentials : ProcessEnv -> option Error.
Variable World : Type.
Variable Resource : Type.
Variable requiredPermissions : list (RequiredPermission Resource).
Variable simulateRule :
  SimulateRuleInput Resource -> World -> (Error + list SimulationResult) * World.
Variable send : Client -> World -> (Error + option CallerIdentity) * World.

Implicit Types (cb : option (Callback World)) (st : State World Resource).
Implicit Types (per : RequiredPermission Resource).

(** The function, step by step. *)
Lemma simulatePermissions_steps env options st :
  simulatePermissions sha256_base64 checkCredentials requiredPermissions
    simulateRule send env options st
  = match getStsClient sha256_base64 checkCredentials env (region options)
            (clients st) with
    | (inl e, c) =>
        (inl e, {| clients := c; world := world st; trace := trace st |})
    | (inr client, c) =>
        let (r, w) := send client (world st) in
        let st1 := {| clients := c; world := w;
                      trace := trace st ++ [CallSend client] |} in
        match r with
        | inl e => (inl e, st1)
        | inr None => (inl NoIdentity, st1)
        | inr (Some response) =>
            match if_truthy (Arn response) with
            | None => (inl NoIdentity, st1)
            | Some callerArn =>
                match normalizeArn callerArn with
                | inl e => (inl e, st1)
                | inr principal =>
                    match simulate_each simulateRule principal (region options)
                            (onSimulation options) requiredPermissions [] st1 with
                    | (inr results, st') => (inr {| results := results |}, st')
                    | (inl e, st') => (inl e, st')
                    end
                end
            end
        end
    end.
Proof.
  unfold simulatePermissions, bind, with_clients, call, throw, ret.
  destruct (getStsClient _ _ _ _ _) as [[e|client] c]; [reflexivity|].
  cbn [world clients trace].
  destruct (send client (world st)) as [[e|[response|]] w]; try reflexivity.
  destruct (if_truthy (Arn response)) as [callerArn|]; [|reflexivity].
  destruct (normalizeArn callerArn); [reflexivity|].
  now destruct (simulate_each _ _ _ _ _ _ _) as [[e|out] st'].
Qed.

Lemma callback_events_loop cb result :
  forallb (is_loop_event (Resource := Resource)) (callback_events cb result) = true.
Proof. destruct cb; simpl; [|reflexivity]. now induction result. Qed.

(** The inner loop only calls the callback. *)
Lemma push_results_events cb result results st :
  exists events,
    trace (snd (push_results cb result results st)) = trace st ++ events
    /\ forallb (is_loop_event (Resource := Resource)) events = true
    /\ forall (input : SimulateRuleInput Resource) outcome,
         ~ In (CallSimulateRule input outcome) events.
Proof.
  destruct (push_results_run World Resource cb result results st)
    as [(st' & -> & Ht) | (e & st' & done & res & -> & Ht)]; simpl.
  - exists (callback_events cb result). split; [exact Ht|].
    split; [apply callback_events_loop|].
    intros input outcome H. destruct cb; simpl in H; [|exact H].
    apply in_map_iff in H as (r & H & _). discriminate.
  - exists (callback_events cb done ++ [CallOnSimulation res]).
    split; [exact Ht|]. split.
    + now rewrite forallb_app, callback_events_loop.
    + intros input outcome [H | [H | []]]%in_app_iff; [|discriminate].
      destruct cb; simpl in H; [|exact H].
      apply in_map_iff in H as (r & H & _). discriminate.
Qed.

(** What the loop does: calls of [simulateRule] for the permissions, and
    calls of the callback; no identity request. *)
Lemma simulate_each_events principal region cb permissions :
  forall results st,
  exists events,
    trace (snd (simulate_each simulateRule principal region cb permissions
                  results st))
    = trace st ++ events
    /\ forallb (is_loop_event (Resource := Resource)) events = true
    /\ forall (input : SimulateRuleInput Resource) outcome,
         In (CallSimulateRule input outcome) events ->
         exists per, In per permissions /\ input = rule_input principal region per.
Proof.
  induction permissions as [|per permissions IH]; intros results st.
  - exists []. simpl. rewrite app_nil_r. split; [reflexivity|].
    split; [reflexivity|]. intros input outcome [].
  - simpl. unfold bind at 1, call at 1.
    destruct (simulateRule (rule_input principal region per) (world st))
      as [[e|result] w].
    + exists [CallSimulateRule (rule_input principal region per) (inl e)].
      split; [reflexivity|]. split; [reflexivity|].
      intros input outcome [[= <- _] | []]. exists per. simpl. auto.
    + unfold bind.
      set (st1 := {| clients := clients st; world := w;
                     trace := trace st
                              ++ [CallSimulateRule (rule_input principal region per)
                                    (inr result)] |}).
      destruct (push_results_events cb result results st1)
        as (evs2 & Ht2 & Hloop2 & Hno2).
      destruct (push_results cb result results st1) as [[e|results'] st2];
        simpl in Ht2.
      * exists (CallSimulateRule (rule_input principal region per) (inr result)
                :: evs2).
        simpl. rewrite Ht2. unfold st1. simpl. rewrite <- app_assoc.
        split; [reflexivity|]. split; [exact Hloop2|].
        intros input outcome [[= <- _] | H]; [|now apply Hno2 in H].
        exists per. simpl. auto.
      * destruct (IH results' st2) as (evs3 & Ht3 & Hloop3 & Hin3).
        exists (CallSimulateRule (rule_input principal region per) (inr result)
                :: evs2 ++ evs3).
        rewrite Ht3, Ht2. unfold st1. simpl. rewrite <- !app_assoc.
        split; [reflexivity|]. split; [now rewrite forallb_app, Hloop2|].
        intros input outcome [[= <- _] | [H | H]%in_app_iff].
        -- exists per. simpl. auto.
        -- now apply Hno2 in H.
        -- apply Hin3 in H as (p & Hp & ->). exists p. simpl. auto.
Qed.

(** The function, by what it reached: it failed before the identity
    request, or between the request and the loop, or it ran the loop. *)
Lemma simulatePermissions_reached env options st :
  let run :=
    simulatePermissions sha256_base64 checkCredentials requiredPermissions
      simulateRule send env options st in
  let gs :=
    getStsClient sha256_base64 checkCredentials env (region options)
      (clients st) in
  (trace (snd run) = trace st /\ exists e, fst gs = inl e /\ fst run = inl e)
  \/ (exists client,
           fst gs = inr client
           /\ ((trace (snd run) = trace st ++ [CallSend client]
                /\ exists e, fst run = inl e)
               \/ exists callerArn principal,
                    fst (send client (world st))
                    = inr (Some {| Arn := Some callerArn |})
                    /\ normalizeArn callerArn = inr principal
                    /\ let loop :=
                         simulate_each simulateRule principal (region options)
                           (onSimulation options) requiredPermissions []
                           {| clients := snd gs;
                              world := snd (send client (world st));
                              trace := trace st ++ [CallSend client] |} in
                       snd run = snd loop
                       /\ fst run
                          = match fst loop with
                            | inl e => inl e
                            | inr results => inr {| results := results |}
                            end)).
Proof.
  cbv zeta. rewrite simulatePermissions_steps.
  destruct (getStsClient _ _ _ _ _) as [[e|client] c]; simpl.
  { left. eauto. }
  destruct (send client (world st)) as [[e|[[identityArn]|]] w] eqn:Es; simpl;
    try solve [right; exists client; split; [reflexivity|]; left; eauto].
  destruct (if_truthy identityArn) as [callerArn|] eqn:Et; simpl;
    try solve [right; exists client; split; [reflexivity|]; left; eauto].
  apply if_truthy_Some in Et as [-> _].
  destruct (normalizeArn callerArn) as [e|principal] eqn:En; simpl;
    try solve [right; exists client; split; [reflexivity|]; left; eauto].
  destruct (simulate_each _ _ _ _ _ _ _) as [[e|results] st'] eqn:Eloop; simpl.
  all: right; exists client; split; [reflexivity|].
  all: right; exists callerArn, principal; rewrite Es; simpl; rewrite Eloop.
  all: split; [reflexivity|]; split; [exact En|]; now split.
Qed.

(** No valid identity.  When the identity service answers without a
    response, without an ARN or with an empty ARN, the call throws 'No
    valid AWS calling identity detected'; the identity request is all it
    did, nothing was simulated. *)
Theorem simulatePermissions_no_identity env options st client response w :
  fst (getStsClient sha256_base64 checkCredentials env (region options)
         (clients st)) = inr client ->
  send client (world st) = (inr response, w) ->
  response = None
  \/ response = Some {| Arn := None |}
  \/ response = Some {| Arn := Some "" |} ->
  simulatePermissions sha256_base64 checkCredentials requiredPermissions
    simulateRule send env options st
  = (inl NoIdentity,
     {| clients := snd (getStsClient sha256_base64 checkCredentials env
                          (region options) (clients st));
        world := w;
        trace := trace st ++ [CallSend client] |}).
Proof.
  intros Hclient Hsend Hresponse. rewrite simulatePermissions_steps.
  destruct (getStsClient _ _ _ _ _) as [r c]. simpl in Hclient. subst r.
  rewrite Hsend. simpl.
  destruct Hresponse as [-> | [-> | ->]]; reflexivity.
Qed.

(** Failures before the loop come out unchanged, and nothing is simulated.
    A failed credential check (the STS client not being cached) comes out
    before any call to the outside and leaves the state as it was.  A
    failed identity request, and an ARN that the normaliser rejects, come
    out after the identity request, which is all the call did. *)
Theorem simulatePermissions_fails_before_loop env options st :
  let run :=
    simulatePermissions sha256_base64 checkCredentials requiredPermissions
      simulateRule send env options st in
  let after_request client w :=
    {| clients := snd (getStsClient sha256_base64 checkCredentials env
                         (region options) (clients st));
       world := w;
       trace := trace st ++ [CallSend client] |} in
  (forall e,
      _clients (clients st)
        !! key_of sha256_base64 env
             {| in_region := region options; in_service := sts;
                in_customCredentials := None |} = None ->
      checkCredentials env = Some e ->
      run = (inl e, st))
  /\ (forall client e w,
      fst (getStsClient sha256_base64 checkCredentials env (region options)
             (clients st)) = inr client ->
      send client (world st) = (inl e, w) ->
      run = (inl e, after_request client w))
  /\ (forall client callerArn e w,
      fst (getStsClient sha256_base64 checkCredentials env (region options)
             (clients st)) = inr client ->
      send client (world st) = (inr (Some {| Arn := Some callerArn |}), w) ->
      callerArn <> "" ->
      normalizeArn callerArn = inl e ->
      run = (inl e, after_request client w)).
Proof.
  cbv zeta. split; [|split].
  - intros e Hmiss Hcheck. rewrite simulatePermissions_steps.
    unfold getStsClient.
    rewrite (getServiceClient_check_fails _ _ _ _ _ _ Hmiss Hcheck).
    now destruct st.
  - intros client e w Hclient Hsend. rewrite simulatePermissions_steps.
    destruct (getStsClient _ _ _ _ _) as [r c]. simpl in Hclient. subst r.
    now rewrite Hsend.
  - intros client callerArn e w Hclient Hsend Hne Hnorm.
    rewrite simulatePermissions_steps.
    destruct (getStsClient _ _ _ _ _) as [r c]. simpl in Hclient. subst r.
    rewrite Hsend. simpl. now rewrite (if_truthy_nonempty _ Hne), Hnorm.
Qed.

(** What a run did after the state it started in. *)
Lemma simulatePermissions_events env options st events :
  let run :=
    simulatePermissions sha256_base64 checkCredentials requiredPermissions
      simulateRule send env options st in
  let gs :=
    getStsClient sha256_base64 checkCredentials env (region options)
      (clients st) in
  trace (snd run) = trace st ++ events ->
  events = []
  \/ exists client,
       fst gs = inr client
       /\ (events = [CallSend client]
           \/ exists callerArn principal loop_events,
                fst (send client (world st))
                = inr (Some {| Arn := Some callerArn |})
                /\ normalizeArn callerArn = inr principal
                /\ events = CallSend client :: loop_events
                /\ trace (snd (simulate_each simulateRule principal
                                 (region options) (onSimulation options)
                                 requiredPermissions []
                                 {| clients := snd gs;
                                    world := snd (send client (world st));
                                    trace := trace st ++ [CallSend client] |}))
                   = (trace st ++ [CallSend client]) ++ loop_events
                /\ fst run
                   = match fst (simulate_each simulateRule principal
                                  (region options) (onSimulation options)
                                  requiredPermissions []
                                  {| clients := snd gs;
                                     world := snd (send client (world st));
                                     trace := trace st ++ [CallSend client] |})
                     with
                     | inl e => inl e
                     | inr results => inr {| results := results |}
                     end).
Proof.
  cbv zeta. intros Hevents.
  destruct (simulatePermissions_reached env options st)
    as [(Ht & _)
       | (client & Hgs & [(Ht & _)
                         | (callerArn & principal & Hs & Hn & Hsnd & Hfst)])].
  - left. rewrite Ht, <- (app_nil_r (trace st)) in Hevents at 1.
    now apply app_inv_head in Hevents.
  - right. exists client. split; [exact Hgs|]. left.
    rewrite Ht in Hevents. now apply app_inv_head in Hevents.
  - right. exists client. split; [exact Hgs|]. right.
    destruct (simulate_each_extends World Resource simulateRule principal
                (region options) (onSimulation options) requiredPermissions []
                {| clients :=
                     snd (getStsClient sha256_base64 checkCredentials env
                            (region options) (clients st));
                   world := snd (send client (world st));
                   trace := trace st ++ [CallSend client] |})
      as [loop_events Hloop].
    exists callerArn, principal, loop_events.
    split; [exact Hs|]. split; [exact Hn|].
    split; [|split; [exact Hloop | exact Hfst]].
    rewrite Hsnd, Hloop in Hevents. simpl in Hevents.
    rewrite <- app_assoc in Hevents. now apply app_inv_head in Hevents.
Qed.

(** Every call of [simulateRule] is a call for one of the required
    permissions: it carries that permission's actions and resource, the
    region of the options, two retries, and as principal the normalised
    ARN of the identity that the STS client reported. *)
Theorem simulateRule_called_for_required env options st events input outcome :
  trace (snd (simulatePermissions sha256_base64 checkCredentials
                requiredPermissions simulateRule send env options st))
  = trace st ++ events ->
  In (CallSimulateRule input outcome) events ->
  retries input = 2
  /\ sim_region input = region options
  /\ (exists per,
         In per requiredPermissions
         /\ actionNames input = actions per
         /\ sim_resource input = resource per)
  /\ exists client callerArn,
       fst (getStsClient sha256_base64 checkCredentials env (region options)
              (clients st)) = inr client
       /\ fst (send client (world st)) = inr (Some {| Arn := Some callerArn |})
       /\ normalizeArn callerArn = inr (arn input).
Proof.
  intros Hevents Hin.
  destruct (simulatePermissions_events env options st events Hevents)
    as [-> | (client & Hgs & [-> | (callerArn & principal & loop_events
                                    & Hs & Hn & -> & Hloop & _)])].
  - destruct Hin.
  - destruct Hin as [|[]]; discriminate.
  - destruct Hin as [|Hin]; [discriminate|].
    destruct (simulate_each_events principal (region options)
                (onSimulation options) requiredPermissions []
                {| clients :=
                     snd (getStsClient sha256_base64 checkCredentials env
                            (region options) (clients st));
                   world := snd (send client (world st));
                   trace := trace st ++ [CallSend client] |})
      as (evs & Hevs & _ & Hinputs).
    rewrite Hloop in Hevs. apply app_inv_head in Hevs as <-.
    apply Hinputs in Hin as (per & Hper & ->). simpl.
    split; [reflexivity|]. split; [reflexivity|]. split; [eauto|].
    exists client, callerArn. auto.
Qed.

(** A run asks for the identity only through the client that
    [getStsClient] returned to it. *)
Lemma simulatePermissions_send_client env options st events client :
  trace (snd (simulatePermissions sha256_base64 checkCredentials
                requiredPermissions simulateRule send env options st))
  = trace st ++ events ->
  In (CallSend client) events ->
  fst (getStsClient sha256_base64 checkCredentials env (region options)
         (clients st)) = inr client.
Proof.
  intros Hevents Hin.
  destruct (simulatePermissions_events env options st events Hevents)
    as [-> | (c & Hgs & [-> | (callerArn & principal & loop_events
                               & _ & _ & -> & Hloop & _)])].
  - destruct Hin.
  - destruct Hin as [[= <-]|[]]. exact Hgs.
  - destruct Hin as [[= <-]|Hin]; [exact Hgs|].
    destruct (simulate_each_events principal (region options)
                (onSimulation options) requiredPermissions []
                {| clients :=
                     snd (getStsClient sha256_base64 checkCredentials env
                            (region options) (clients st));
                   world := snd (send c (world st));
                   trace := trace st ++ [CallSend c] |})
      as (evs & Hevs & Hkind & _).
    rewrite Hloop in Hevs. apply app_inv_head in Hevs as <-.
    rewrite forallb_forall in Hkind. apply Hkind in Hin. discriminate.
Qed.

(** One STS client for all runs.  The client through which a run asks for
    the identity is the one the cache holds for the region.  Whatever calls
    of [getServiceClient] are made afterwards under the same environment, by
    whoever runs in the process (the collaborators of the run included), a
    later run for the same region asks for the identity through the very
    same client object: the identity request is the first thing it does,
    and everything after it belongs to the loop. *)
Theorem simulatePermissions_one_sts_client env options options' st st2 calls
    client events1 :
  trace (snd (simulatePermissions sha256_base64 checkCredentials
                requiredPermissions simulateRule send env options st))
  = trace st ++ events1 ->
  In (CallSend client) events1 ->
  region options' = region options ->
  clients st2
  = after_calls sha256_base64 checkCredentials env calls
      (snd (getStsClient sha256_base64 checkCredentials env (region options)
              (clients st))) ->
  exists events2,
    trace (snd (simulatePermissions sha256_base64 checkCredentials
                  requiredPermissions simulateRule send env options' st2))
    = trace st2 ++ CallSend client :: events2
    /\ forallb (is_loop_event (Resource := Resource)) events2 = true.
Proof.
  intros Hevents1 Hin Hregion Hst2.
  apply (simulatePermissions_send_client _ _ _ _ _ Hevents1) in Hin.
  unfold getStsClient in Hin, Hst2.
  pose proof (getServiceClient_again sha256_base64 checkCredentials env _ _ _
                calls Hin) as Hagain.
  cbv zeta in Hagain. rewrite <- Hst2, <- Hregion in Hagain.
  rewrite simulatePermissions_steps. unfold getStsClient. rewrite Hagain.
  destruct (send client (world st2)) as [[e|[response|]] w];
    try (exists []; split; reflexivity).
  destruct (if_truthy (Arn response)) as [callerArn|];
    [|exists []; split; reflexivity].
  destruct (normalizeArn callerArn) as [e|principal];
    [exists []; split; reflexivity|].
  destruct (simulate_each_events principal (region options')
              (onSimulation options') requiredPermissions []
              {| clients := clients st2; world := w;
                 trace := trace st2 ++ [CallSend client] |})
    as (events2 & Hevents2 & Hloop & _).
  exists events2. split; [|exact Hloop].
  destruct (simulate_each _ _ _ _ _ _ _) as [[e|results] st'];
    simpl in Hevents2 |- *; rewrite Hevents2; now rewrite <- app_assoc.
Qed.

(** ** A callback that throws *)

Lemma push_results_throwing (f : Callback World) res e :
  (forall w, fst (f res w) = inl e) ->
  forall result results st events,
    trace (snd (push_results (Some f) result results st)) = trace st ++ events ->
    In (CallOnSimulation res) events ->
    fst (push_results (Some f) result results st) = inl e
    /\ exists earlier, events = earlier ++ [CallOnSimulation res].
Proof.
  intros Hthrows. induction result as [|r result IH]; intros results st events.
  - simpl. rewrite <- (app_nil_r (trace st)) at 1.
    intros <-%app_inv_head [].
  - simpl. unfold bind, call.
    pose proof (Hthrows (world st)) as Hres.
    destruct (f r (world st)) as [[e0|[]] w] eqn:Ef; simpl.
    + intros <-%app_inv_head [[= ->] | []].
      rewrite Ef in Hres. injection Hres as ->.
      split; [reflexivity|]. now exists [].
    + set (st1 := {| clients := clients st; world := w;
                     trace := trace st ++ [CallOnSimulation r] |}).
      destruct (push_results_events (Some f) result (results ++ [r]) st1)
        as (evs & Hevs & _).
      intros Hevents. rewrite Hevs in Hevents. unfold st1 in Hevents.
      simpl in Hevents. rewrite <- app_assoc in Hevents.
      apply app_inv_head in Hevents as <-.
      intros [[= ->] | Hin].
      * rewrite Ef in Hres. discriminate.
      * destruct (IH (results ++ [r]) st1 evs Hevs Hin) as [Hfst [earlier ->]].
        split; [exact Hfst|]. now exists (CallOnSimulation r :: earlier).
Qed.

Lemma simulate_each_throwing (f : Callback World) res e principal region :
  (forall w, fst (f res w) = inl e) ->
  forall permissions results st events,
    trace (snd (simulate_each simulateRule principal region (Some f)
                  permissions results st))
    = trace st ++ events ->
    In (CallOnSimulation res) events ->
    fst (simulate_each simulateRule principal region (Some f) permissions
           results st) = inl e
    /\ exists earlier, events = earlier ++ [CallOnSimulation res].
Proof.
  intros Hthrows.
  induction permissions as [|per permissions IH]; intros results st events.
  - simpl. rewrite <- (app_nil_r (trace st)) at 1.
    intros <-%app_inv_head [].
  - simpl. unfold bind, call.
    destruct (simulateRule (rule_input principal region per) (world st))
      as [[e0|result] w].
    + simpl. intros <-%app_inv_head [|[]]. discriminate.
    + set (st1 := {| clients := clients st; world := w;
                     trace := trace st
                              ++ [CallSimulateRule (rule_input principal region per)
                                    (inr result)] |}).
      destruct (push_results_events (Some f) result results st1)
        as (evs2 & Hevs2 & _).
      pose proof (push_results_throwing f res e Hthrows result results st1 evs2
                    Hevs2) as Hpush.
      destruct (push_results (Some f) result results st1)
        as [[e2|results'] st2]; simpl in Hevs2, Hpush |- *.
      * intros Hevents. rewrite Hevs2 in Hevents. unfold st1 in Hevents.
        simpl in Hevents. rewrite <- app_assoc in Hevents.
        apply app_inv_head in Hevents as <-.
        intros [|Hin]; [discriminate|].
        destruct (Hpush Hin) as [Hfst [earlier ->]].
        split; [exact Hfst|].
        now exists (CallSimulateRule (rule_input principal region per)
                      (inr result) :: earlier).
      * destruct (simulate_each_extends World Resource simulateRule principal
                    region (Some f) permissions results' st2) as [evs3 Hevs3].
        intros Hevents. rewrite Hevs3, Hevs2 in Hevents. unfold st1 in Hevents.
        simpl in Hevents. rewrite <- !app_assoc in Hevents.
        apply app_inv_head in Hevents as <-. simpl.
        intros [|[Hin | Hin]%in_app_iff]; [discriminate | |].
        -- destruct (Hpush Hin) as [Hfst _]. discriminate.
        -- destruct (IH results' st2 evs3 Hevs3 Hin) as [Hfst [earlier ->]].
           split; [exact Hfst|].
           exists (CallSimulateRule (rule_input principal region per)
                     (inr result) :: evs2 ++ earlier).
           simpl. now rewrite <- app_assoc.
Qed.

(** A throwing callback ends the run.  If the callback throws [e] whenever
    it is told about [res], then a run that tells it about [res] throws
    [e], and doing so was the last thing it did: no later result is
    announced and [simulateRule] is not called again. *)
Theorem simulatePermissions_callback_throws env options st
    (f : Callback World) res e events :
  onSimulation options = Some f ->
  (forall w, fst (f res w) = inl e) ->
  trace (snd (simulatePermissions sha256_base64 checkCredentials
                requiredPermissions simulateRule send env options st))
  = trace st ++ events ->
  In (CallOnSimulation res) events ->
  fst (simulatePermissions sha256_base64 checkCredentials requiredPermissions
         simulateRule send env options st) = inl e
  /\ exists earlier, events = earlier ++ [CallOnSimulation res].
Proof.
  intros Hcb Hthrows Hevents Hin.
  destruct (simulatePermissions_events env options st events Hevents)
    as [-> | (client & Hgs & [-> | (callerArn & principal & loop_events
                                    & _ & _ & -> & Hloop & Hfst)])].
  - destruct Hin.
  - destruct Hin as [|[]]; discriminate.
  - destruct Hin as [|Hin]; [discriminate|].
    rewrite Hcb in Hloop, Hfst.
    destruct (simulate_each_throwing f res e principal (region options)
                Hthrows requiredPermissions [] _ loop_events Hloop Hin)
      as [Hloop_fst [earlier ->]].
    rewrite Hloop_fst in Hfst. split; [exact Hfst|].
    now exists (CallSend client :: earlier).
Qed.
End SimulationMore.

Lemma simulatePermissions_no_identity_witness :
  exists client,
    simulatePermissions (fun text => text) (fun _ => None) [P1; P2]
      example_simulateRule example_send_empty example_env example_options
      example_start
    = (inl NoIdentity,
       {| clients :=
            snd (getStsClient (fun text => text) (fun _ => None) example_env
                   "eu-central-1" no_clients);
          world := [];
          trace := [CallSend client] |}).
Proof.
  destruct (getServiceClient_returns (fun text => text) (fun _ => None)
              example_env
              {| in_region := "eu-central-1"; in_service := sts;
                 in_customCredentials := None |} no_clients eq_refl)
    as [client Hclient].
  exists client.
  apply (simulatePermissions_no_identity (fun text => text) (fun _ => None)
           _ _ [P1; P2] example_simulateRule example_send_empty example_env
           example_options example_start client (Some {| Arn := Some "" |}) []);
    [exact Hclient | reflexivity | right; right; reflexivity].
Defined.

Lemma simulatePermissions_fails_before_loop_witness :
  simulatePermissions (fun text => text) failing_checkCredentials [P1; P2]
    example_simulateRule example_send example_env example_options example_start
  = (inl (MkError "no credentials"), example_start)
  /\ fst (simulatePermissions (fun text => text) (fun _ => None) [P1; P2]
            example_simulateRule example_send_ec2 example_env example_options
            example_start)
     = inl UnsupportedArn.
Proof.
  split.
  - apply (proj1 (simulatePermissions_fails_before_loop (fun text => text)
                    failing_checkCredentials _ _ [P1; P2] example_simulateRule
                    example_send example_env example_options example_start));
      [apply lookup_empty | reflexivity].
  - destruct (getServiceClient_returns (fun text => text) (fun _ => None)
                example_env
                {| in_region := "eu-central-1"; in_service := sts;
                   in_customCredentials := None |} no_clients eq_refl)
      as [client Hclient].
    rewrite (proj2 (proj2 (simulatePermissions_fails_before_loop
                             (fun text => text) (fun _ => None) _ _ [P1; P2]
                             example_simulateRule example_send_ec2 example_env
                             example_options example_start))
               client "arn:aws:ec2::123456789012:instance/i-abc"
               UnsupportedArn [] Hclient eq_refl);
      [reflexivity | discriminate | reflexivity].
Defined.

Lemma simulateRule_called_for_required_witness :
  let run :=
    simulatePermissions (fun text => text) (fun _ => None) [P1; P2]
      example_simulateRule example_send example_env example_options
      example_start in
  let input :=
    rule_input "arn:aws:iam::123456789012:role/MyRole" "eu-central-1" P2 in
  In (CallSimulateRule input (inr [allowed "lambda:GetFunction"]))
     (trace (snd run))
  /\ retries input = 2
  /\ exists per,
       In per [P1; P2]
       /\ actionNames input = actions per
       /\ sim_resource input = resource per.
Proof.
  intros run input.
  assert (Hin : In (CallSimulateRule input (inr [allowed "lambda:GetFunction"]))
                   (trace (snd run)))
    by (vm_compute; auto 10).
  split; [exact Hin|].
  destruct (simulateRule_called_for_required (fun text => text) (fun _ => None)
              _ _ [P1; P2] example_simulateRule example_send example_env
              example_options example_start (trace (snd run)) input
              (inr [allowed "lambda:GetFunction"]) eq_refl Hin)
    as (Hretries & _ & Hper & _).
  now split.
Defined.

Lemma simulatePermissions_one_sts_client_witness :
  let run1 :=
    simulatePermissions (fun text => text) (fun _ => None) [P1; P2]
      example_simulateRule example_send example_env example_options
      example_start in
  let client :=
    {| client_id := 0; client_class := sts;
       client_config :=
         {| cfg_region := "eu-central-1";
            cfg_credentials := Some (KeyPair "AKIATOOL" "secret");
            cfg_endpoint := None |} |} in
  let calls :=
    [{| in_region := "eu-central-1"; in_service := lambda;
        in_customCredentials := None |};
     {| in_region := "us-east-1"; in_service := sts;
        in_customCredentials := None |}] in
  let st2 :=
    {| clients := after_calls (fun text => text) (fun _ => None) example_env
                    calls (clients (snd run1));
       world := world (snd run1);
       trace := [] |} in
  In (CallSend client) (trace (snd run1))
  /\ next_id (clients st2) = 3
  /\ exists events2,
       trace (snd (simulatePermissions (fun text => text) (fun _ => None)
                     [P1; P2] example_simulateRule example_send example_env
                     {| region := "eu-central-1"; onSimulation := None |} st2))
       = [] ++ CallSend client :: events2.
Proof.
  intros run1 client calls st2.
  assert (Hin : In (CallSend client) (trace (snd run1)))
    by (vm_compute; auto).
  split; [exact Hin|]. split; [vm_compute; reflexivity|].
  destruct (simulatePermissions_one_sts_client (fun text => text)
              (fun _ => None) _ _ [P1; P2] example_simulateRule example_send
              example_env example_options
              {| region := "eu-central-1"; onSimulation := None |}
              example_start st2 calls client (trace (snd run1))
              eq_refl Hin eq_refl)
    as (events2 & Hevents2 & _).
  - vm_compute. reflexivity.
  - now exists events2.
Defined.

Lemma simulatePermissions_callback_throws_witness :
  let options :=
    {| region := "eu-central-1"; onSimulation := Some throwing_callback |} in
  let run :=
    simulatePermissions (fun text => text) (fun _ => None) [P1; P2]
      example_simulateRule example_send example_env options example_start in
  fst run = inl (MkError "callback failed")
  /\ world (snd run) = [allowed "iam:SimulatePrincipalPolicy"]
  /\ exists earlier,
       trace (snd run) = earlier ++ [CallOnSimulation (allowed "iam:PassRole")].
Proof.
  intros options run.
  assert (Hin : In (CallOnSimulation (allowed "iam:PassRole")) (trace (snd run)))
    by (vm_compute; auto 10).
  destruct (simulatePermissions_callback_throws (fun text => text)
              (fun _ => None) _ _ [P1; P2] example_simulateRule example_send
              example_env options example_start throwing_callback
              (allowed "iam:PassRole") (MkError "callback failed")
              (trace (snd run)) eq_refl (fun w => eq_refl) eq_refl Hin)
    as [Hfst Hlast].
  split; [exact Hfst|]. split; [vm_compute; reflexivity | exact Hlast].
Defined.

(** ** What the ARN pattern matches, exactly *)

Lemma take_while_all p s : all_chars p (take_while p s) = true.
Proof.
  induction s as [|c s IH]; [reflexivity|]. simpl.
  destruct (p c) eqn:E; [|reflexivity]. simpl. now rewrite E.
Qed.

Lemma take_while_rest p s :
  exists rest, s = take_while p s +:+ rest /\ stops p rest = true.
Proof.
  induction s as [|c s (rest & IH & Hrest)].
  - now exists "".
  - simpl. destruct (p c) eqn:E.
    + exists rest. rewrite append_cons. split; [now f_equal | exact Hrest].
    + exists (String c s). simpl. now rewrite E.
Qed.

Lemma take_while_nil p s : take_while p s = "" <-> stops p s = true.
Proof.
  destruct s as [|c s]; simpl; [easy|].
  destruct (p c); simpl; split; easy.
Qed.

Lemma append_same_l s t : s = s +:+ t -> t = "".
Proof.
  intros H. symmetry. apply (inj (String.app s)). now rewrite append_nil_r.
Qed.

(** The ARN pattern parses in one way only.  It matches at a position
    exactly when the text there is [arn:aws:], a non-empty run of word
    characters, [::], a non-empty run of digits, [:], and a non-empty text
    without a slash that runs to the first slash or to the end; the groups
    are these pieces, and the last group is the rest up to the end of the
    line.  Backtracking never yields another split. *)
Theorem arn_pattern_iff s m :
  arn_pattern s = Some m
  <-> exists tail,
        s = arn_of (arn_1 m) (arn_2 m) (arn_3 m) (arn_4 m +:+ tail)
        /\ run_of is_word (arn_1 m)
        /\ run_of is_digit (arn_2 m)
        /\ run_of not_slash (arn_3 m)
        /\ stops not_slash (arn_4 m +:+ tail) = true
        /\ all_chars is_dot (arn_4 m) = true
        /\ stops is_dot tail = true
        /\ arn_0 m = arn_of (arn_1 m) (arn_2 m) (arn_3 m) (arn_4 m).
Proof.
  split.
  - intros Hm.
    destruct (arn_pattern_groups s m Hm) as (tail & Hs & H1 & H2 & H3 & H4).
    exists tail.
    destruct (take_while_rest not_slash (arn_4 m +:+ tail))
      as (rest & Hrest & Hstops).
    assert (Hparse :
              arn_pattern s
              = Some {| arn_0 :=
                          arn_of (arn_1 m) (arn_2 m)
                            (arn_3 m +:+ take_while not_slash (arn_4 m +:+ tail))
                            (take_while is_dot rest);
                        arn_1 := arn_1 m; arn_2 := arn_2 m;
                        arn_3 := arn_3 m
                                 +:+ take_while not_slash (arn_4 m +:+ tail);
                        arn_4 := take_while is_dot rest |}).
    { rewrite <- arn_pattern_arn_of; try assumption.
      - f_equal. rewrite Hs at 1. rewrite Hrest at 1.
        unfold arn_of. now rewrite !append_assoc.
      - destruct H3 as [H3 H3']. split.
        + destruct (arn_3 m); [congruence | discriminate].
        + now rewrite all_chars_app, H3', take_while_all. }
    rewrite Hm in Hparse. injection Hparse as Hparse.
    pose proof (f_equal arn_0 Hparse) as H0'.
    pose proof (f_equal arn_3 Hparse) as H3'.
    pose proof (f_equal arn_4 Hparse) as H4'.
    simpl in H0', H3', H4'. clear Hparse.
    apply append_same_l in H3'. rewrite H3' in Hrest, H0'.
    rewrite append_nil_l in Hrest. rewrite append_nil_r in H0'. subst rest.
    rewrite take_while_run in H4' by assumption.
    apply append_same_l in H4'.
    repeat split; try apply H1; try apply H2; try apply H3; try assumption.
    + now apply take_while_nil.
    + rewrite H0'. rewrite take_while_run by assumption.
      now rewrite H4', append_nil_r.
  - intros (tail & Hs & H1 & H2 & H3 & Hstops & H4 & Htail & H0).
    rewrite Hs, arn_pattern_arn_of by assumption.
    rewrite take_while_run by assumption.
    apply take_while_nil in Htail. rewrite Htail, append_nil_r.
    f_equal. destruct m. simpl in *. now subst.
Qed.

Lemma arn_pattern_iff_witness :
  arn_pattern ("arn:aws:iam::123456789012:user/alice"
               +:+ String "010" "second line")
  = Some {| arn_0 := "arn:aws:iam::123456789012:user/alice";
            arn_1 := "iam"; arn_2 := "123456789012"; arn_3 := "user";
            arn_4 := "/alice" |}.
Proof.
  apply arn_pattern_iff. exists (String "010" "second line").
  repeat split; discriminate.
Defined.

(** ** What the normaliser accepts *)

Lemma append_eq_nil pre suf : "" = pre +:+ suf -> suf = "".
Proof.
  destruct pre; [now rewrite append_nil_l | rewrite append_cons; discriminate].
Qed.

Lemma stops_app_l p s t : stops p (s +:+ t) = true -> stops p s = true.
Proof. destruct s; [reflexivity|]. now rewrite append_cons. Qed.

Section SearchFacts.
Context {R : Type}.

Lemma search_cons (pat : string -> option R) c s :
  search pat (String c s)
  = match pat (String c s) with
    | Some r => Some r
    | None => search pat s
    end.
Proof. reflexivity. Qed.

(** The search returns the match at the first position that has one. *)
Lemma search_leftmost (pat : string -> option R) s r :
  search pat s = Some r
  <-> exists pre suf,
        s = pre +:+ suf /\ pat suf = Some r
        /\ forall pre1 suf1,
             pre = pre1 +:+ suf1 -> suf1 <> "" -> pat (suf1 +:+ suf) = None.
Proof.
  split.
  - induction s as [|c s IH].
    + simpl. destruct (pat "") eqn:E; [|discriminate]. intros [= ->].
      exists "", "". split; [reflexivity|]. split; [exact E|].
      intros pre1 suf1 H%append_eq_nil. congruence.
    + rewrite search_cons. destruct (pat (String c s)) eqn:E.
      * intros [= ->]. exists "", (String c s).
        split; [reflexivity|]. split; [exact E|].
        intros pre1 suf1 H%append_eq_nil. congruence.
      * intros (pre & suf & -> & Hp & Hleft)%IH.
        exists (String c pre), suf. split; [now rewrite append_cons|].
        split; [exact Hp|]. intros [|a pre1] suf1 H Hne.
        -- rewrite append_nil_l in H. subst suf1. now rewrite append_cons.
        -- rewrite append_cons in H. injection H as _ H. now apply (Hleft pre1).
  - intros (pre & suf & -> & Hp & Hleft). induction pre as [|c pre IH].
    + rewrite append_nil_l. now apply search_here.
    + rewrite append_cons, search_cons.
      assert (E : pat (String c (pre +:+ suf)) = None).
      { rewrite <- append_cons. apply (Hleft "" (String c pre)); [|discriminate].
        now rewrite append_nil_l. }
      rewrite E. apply IH. intros pre1 suf1 H Hne.
      apply (Hleft (String c pre1) suf1); [|exact Hne].
      rewrite append_cons. now f_equal.
Qed.
End SearchFacts.

(** A match of the ARN pattern starts where the text has the start of its
    shape. *)
Lemma arn_starts_pattern s : arn_starts s <-> is_Some (arn_pattern s).
Proof.
  split.
  - intros (service & account & c & rest & -> & Hs & Ha & Hc).
    destruct (take_while_rest not_slash rest) as (rest' & Hrest & _).
    assert (E : "arn:aws:" +:+ service +:+ "::" +:+ account +:+ ":" +:+ String c rest
                = arn_of service account (String c (take_while not_slash rest)) rest').
    { unfold arn_of. now rewrite (append_cons c), <- Hrest. }
    rewrite E. apply arn_pattern_succeeds; [assumption..|].
    split; [discriminate|]. simpl. rewrite Hc. apply take_while_all.
  - intros [m Hm]. apply arn_pattern_Some in Hm as (rest & -> & Hs & Ha & [Hne Ht]).
    destruct (arn_3 m) as [|c g3]; [congruence|].
    simpl in Ht. apply andb_true_iff in Ht as [Hc _].
    exists (arn_1 m), (arn_2 m), c, (g3 +:+ rest).
    unfold arn_of. rewrite append_cons. auto.
Qed.

(** What a match of the ARN pattern tells about the text: each group is
    as long as it can be. *)
Lemma arn_pattern_longest s m :
  arn_pattern s = Some m ->
  exists tail,
    s = arn_of (arn_1 m) (arn_2 m) (arn_3 m) (arn_4 m +:+ tail)
    /\ run_of is_word (arn_1 m) /\ run_of is_digit (arn_2 m)
    /\ run_of not_slash (arn_3 m)
    /\ stops not_slash (arn_4 m +:+ tail) = true
    /\ all_chars is_dot (arn_4 m) = true
    /\ stops is_dot tail = true.
Proof.
  intros Hm.
  destruct (arn_pattern_groups s m Hm) as (tail & Hs & H1 & H2 & [H3 H3'] & H4).
  exists tail.
  destruct (take_while_rest not_slash (arn_4 m +:+ tail)) as (rest & Hrest & Hstops).
  set (g3 := arn_3 m +:+ take_while not_slash (arn_4 m +:+ tail)).
  assert (Hg3 : run_of not_slash g3).
  { split.
    - unfold g3. destruct (arn_3 m); [congruence | discriminate].
    - unfold g3. now rewrite all_chars_app, H3', take_while_all. }
  assert (Hs' : s = arn_of (arn_1 m) (arn_2 m) g3 rest).
  { rewrite Hs at 1. rewrite Hrest at 1. unfold arn_of, g3.
    now rewrite !append_assoc. }
  pose proof (arn_pattern_arn_of _ _ _ _ H1 H2 Hg3 Hstops) as Hparse.
  rewrite <- Hs', Hm in Hparse. injection Hparse as Hparse.
  pose proof (f_equal arn_3 Hparse) as E3.
  pose proof (f_equal arn_4 Hparse) as E4.
  simpl in E3, E4. unfold g3 in E3. apply append_same_l in E3.
  rewrite E3, append_nil_l in Hrest. subst rest.
  rewrite take_while_run in E4 by assumption. apply append_same_l in E4.
  split; [exact Hs|]. split; [exact H1|]. split; [exact H2|].
  split; [now split|]. split; [exact Hstops|]. split; [exact H4|].
  now apply take_while_nil.
Qed.

(** Without a slash there is no match of the second pattern. *)
Lemma assumed_role_match_no_slash s :
  all_chars not_slash s = true -> assumed_role_match s = None.
Proof.
  unfold assumed_role_match. induction s as [|c s IH]; [reflexivity|].
  simpl all_chars. intros [Hc Hs]%andb_true_iff. rewrite search_cons.
  assert (E : assumed_role_pattern (String c s) = None).
  { unfold assumed_role_pattern. cbn [lit].
    destruct (Ascii.eqb_spec "/" c) as [<-|]; [discriminate Hc | reflexivity]. }
  rewrite E. now apply IH.
Qed.

(** A slash and a character that is not one: the second pattern fails
    there only when no slash follows. *)
Lemma assumed_role_pattern_None d rest :
  not_slash d = true ->
  assumed_role_pattern (String "/" (String d rest)) = None ->
  all_chars not_slash (String d rest) = true.
Proof.
  intros Hd Hnone.
  destruct (take_while_rest not_slash (String d rest)) as (r & Hr & Hstop).
  destruct r as [|c r].
  - rewrite append_nil_r in Hr. rewrite Hr. apply take_while_all.
  - exfalso. simpl in Hstop. unfold not_slash in Hstop.
    rewrite negb_involutive in Hstop. apply Ascii.eqb_eq in Hstop as ->.
    assert (Hrole : run_of not_slash (take_while not_slash (String d rest))).
    { split; [simpl; rewrite Hd; discriminate | apply take_while_all]. }
    pose proof (assumed_role_pattern_role _ r Hrole) as H.
    change ("/" +:+ take_while not_slash (String d rest) +:+ "/" +:+ r)
      with (String "/" (take_while not_slash (String d rest) +:+ String "/" r))
      in H.
    rewrite <- Hr in H. congruence.
Qed.

(** The second pattern on a text that starts with a slash: its leftmost
    match captures the first segment that is not empty. *)
Lemma assumed_role_match_parse rest roleName session :
  stops not_slash rest = true ->
  assumed_role_match rest = Some (roleName, session) ->
  exists slashes after,
    rest = slashes +:+ roleName +:+ "/" +:+ after
    /\ run_of is_slash slashes /\ run_of not_slash roleName.
Proof.
  unfold assumed_role_match.
  induction rest as [|c rest IH]; intros Hstop H; [discriminate|].
  simpl in Hstop. unfold not_slash in Hstop. rewrite negb_involutive in Hstop.
  apply Ascii.eqb_eq in Hstop as ->. rewrite search_cons in H.
  destruct (assumed_role_pattern (String "/" rest)) as [r|] eqn:E.
  - injection H as ->. unfold assumed_role_pattern in E.
    apply lit_Some in E as (s1 & E1 & E).
    apply plus_Some in E as (g1 & s2 & -> & Hg1 & Hg1' & E).
    apply lit_Some in E as (s3 & -> & E).
    apply star_Some in E as (g2 & s4 & -> & _ & [= <- <-]).
    exists "/", (g2 +:+ s4). split; [exact E1|].
    split; [split; [discriminate | reflexivity] | now split].
  - destruct rest as [|d rest]; [discriminate|].
    destruct (not_slash d) eqn:Hd.
    + apply assumed_role_pattern_None in E; [|exact Hd].
      apply assumed_role_match_no_slash in E. unfold assumed_role_match in E.
      congruence.
    + destruct (IH (f_equal negb Hd) H)
        as (slashes & after & Hrest & [_ Hsl] & Hrole).
      exists (String "/" slashes), after.
      split; [now rewrite append_cons, <- Hrest|].
      split; [split; [discriminate | exact Hsl] | exact Hrole].
Qed.

Lemma assumed_role_match_slashes slashes roleName after :
  run_of is_slash slashes -> run_of not_slash roleName ->
  assumed_role_match (slashes +:+ roleName +:+ "/" +:+ after)
  = Some (roleName, take_while is_dot after).
Proof.
  intros [Hne Hsl] Hrole. unfold assumed_role_match.
  induction slashes as [|c slashes IH]; [congruence|]. clear Hne.
  simpl in Hsl. apply andb_true_iff in Hsl as [Hc Hsl].
  apply Ascii.eqb_eq in Hc as ->.
  destruct slashes as [|c slashes].
  - apply search_here. now apply assumed_role_pattern_role.
  - rewrite append_cons, search_cons.
    assert (E : assumed_role_pattern
                  (String "/" (String c slashes +:+ roleName +:+ "/" +:+ after))
                = None).
    { simpl in Hsl. apply andb_true_iff in Hsl as [Hc _].
      apply Ascii.eqb_eq in Hc as ->. now rewrite append_cons. }
    rewrite E. apply IH; [discriminate | exact Hsl].
Qed.

(** What the normaliser accepts, exactly.  An input is accepted when, and
    only when, its leftmost match of the ARN pattern captures the service
    iam and the resource type user, or the service sts and the resource
    type assumed-role with, on the line, one or more slashes, a role name
    that is not empty and holds no slash, and one more slash.  In the first
    case the output is the whole input, whatever stands around the match
    and whether or not a user name follows; in the second it is the role
    ARN of the captured account and of that role name, the first
    segment after assumed-role that is not empty; a session name need not
    follow. *)
Theorem normalizeArn_accepts_only s t :
  normalizeArn s = inr t
  <-> exists before service account resourceType rest tail,
        leftmost_arn s before service account resourceType rest tail
        /\ ((service = "iam" /\ resourceType = "user" /\ t = s)
            \/ (service = "sts" /\ resourceType = "assumed-role"
                /\ exists slashes roleName session,
                     rest = slashes +:+ roleName +:+ "/" +:+ session
                     /\ run_of is_slash slashes
                     /\ run_of not_slash roleName
                     /\ t = role_arn account roleName)).
Proof.
  split.
  - unfold normalizeArn.
    destruct (arn_match s) as [m|] eqn:Em; [|discriminate].
    apply search_leftmost in Em as (before & hit & -> & Hm & Hleft).
    destruct (arn_pattern_longest hit m Hm)
      as (tail & -> & H1 & H2 & H3 & Hstop & H4 & Htail).
    intros H. exists before, (arn_1 m), (arn_2 m), (arn_3 m), (arn_4 m), tail.
    split.
    { split; [reflexivity|]. split; [|tauto].
      intros pre suf E Hne [m' Hm']%arn_starts_pattern.
      rewrite (Hleft pre suf E Hne) in Hm'. discriminate. }
    destruct (String.eqb_spec (arn_1 m) "iam") as [E1|_],
      (String.eqb_spec (arn_3 m) "user") as [E3|_]; simpl in H.
    1: { left. injection H as <-. auto. }
    all: destruct (String.eqb_spec (arn_1 m) "sts") as [E1'|_],
           (String.eqb_spec (arn_3 m) "assumed-role") as [E3'|_]; simpl in H;
           try discriminate H.
    all: destruct (assumed_role_match (arn_4 m)) as [[roleName session]|] eqn:Er;
           [|discriminate H].
    all: injection H as <-; right; split; [assumption|]; split; [assumption|].
    all: apply assumed_role_match_parse in Er as (slashes & after & E4 & Hsl & Hrole);
           [|now apply stops_app_l in Hstop].
    all: exists slashes, roleName, after; auto.
  - intros (before & service & account & resourceType & rest & tail
            & (-> & Hleft & H1 & H2 & H3 & Hstop & H4 & Htail) & Hcase).
    assert (Hm : arn_match
                   (before +:+ arn_of service account resourceType (rest +:+ tail))
                 = Some {| arn_0 := arn_of service account resourceType rest;
                           arn_1 := service; arn_2 := account;
                           arn_3 := resourceType; arn_4 := rest |}).
    { apply search_leftmost.
      exists before, (arn_of service account resourceType (rest +:+ tail)).
      split; [reflexivity|]. split.
      - rewrite arn_pattern_arn_of by assumption.
        rewrite take_while_run by assumption.
        apply take_while_nil in Htail. now rewrite Htail, append_nil_r.
      - intros pre suf E Hne.
        destruct (arn_pattern (suf +:+ _)) as [m'|] eqn:Ep; [|reflexivity].
        exfalso. apply (Hleft pre suf E Hne), arn_starts_pattern. eauto. }
    unfold normalizeArn. rewrite Hm. cbn [arn_1 arn_2 arn_3 arn_4].
    destruct Hcase as [(-> & -> & ->)
                      | (-> & -> & slashes & roleName & session
                         & -> & Hsl & Hrole & ->)].
    + reflexivity.
    + simpl. now rewrite assumed_role_match_slashes.
Qed.

(** Of several segments the first is the role, and an IAM-user ARN
    without a user name is accepted as it is. *)
Lemma normalizeArn_accepts_only_witness :
  normalizeArn "arn:aws:sts::123456789012:assumed-role//a/b/c"
  = inr "arn:aws:iam::123456789012:role/a"
  /\ normalizeArn "arn:aws:iam::123456789012:user"
     = inr "arn:aws:iam::123456789012:user".
Proof.
  split.
  - apply normalizeArn_accepts_only.
    exists "", "sts", "123456789012", "assumed-role", "//a/b/c", "".
    split.
    + repeat split; try discriminate.
      intros pre suf H%append_eq_nil. congruence.
    + right. split; [reflexivity|]. split; [reflexivity|].
      exists "//", "a", "b/c". repeat split; discriminate.
  - apply normalizeArn_accepts_only.
    exists "", "iam", "123456789012", "user", "", "".
    split.
    + repeat split; try discriminate.
      intros pre suf H%append_eq_nil. congruence.
    + left. now repeat split.
Defined.
